(** * fontscraper: batch generation of STL files from fonts and phrases

    A shallow embedding of [src/fontscraper/main.py] and the properties of
    its name sanitizer, phrase loader, font enumerator, download watcher,
    collision-safe relocator and batch loop.

    Conventions of the embedding.
    - A Python [str] is a list of Unicode code points ([N]). The character
      classes are written out for ASCII and Latin-1; what the Unicode
      database says above Latin-1 is a parameter ([UnicodeDB]).
    - A [pathlib.Path] is the list of its components, outermost first, as
      [pathlib] compares paths.
    - Wall-clock time ([time.time()]) is an integer number of milliseconds;
      [time.sleep(0.2)] advances it by 200 or more.
    - The file system is the set of paths at which a file exists.
      Directories are not tracked, so [mkdir] changes nothing. Of the calls
      of the operating system, [read_text] on the phrase file and [stat] on
      a file of the download directory can fail; the others do not.
    - The browser and what it writes into the download directory are
      given from outside ([World], [Poll]); a file that a poll lists can be
      gone when the poll comes to [stat] it.
    - A Python exception is a value of [exn]; a call that may raise returns
      a [result]. *)

From Stdlib Require Import List ZArith NArith Bool Lia String Ascii.
From Stdlib Require Import Permutation Sorted DecimalString FinFun Wf_nat.
From Stdlib Require DecimalNat DecimalFacts.
Import ListNotations.
Local Open Scope N_scope.
Set Warnings "-abstract-large-number".

(* ================================================================= *)
(** ** Python strings *)

Module PyStr.

(** A code point and a [str]. *)
Definition char := N.
Definition str := list char.

(** An ASCII literal as a [str]. *)
Definition u (s : string) : str := map N_of_ascii (list_ascii_of_string s).

Definition in_range (lo hi c : char) : bool := (lo <=? c) && (c <=? hi).

(** [Py_UNICODE_ISSPACE]: what [str.strip()] removes. *)
Definition isspace (c : char) : bool :=
  in_range 9 13 c || in_range 28 32 c || (c =? 133) || (c =? 160)
  || (c =? 5760) || in_range 8192 8202 c || (c =? 8232) || (c =? 8233)
  || (c =? 8239) || (c =? 8287) || (c =? 12288).

(** The line boundaries of [str.splitlines()], CR LF apart. *)
Definition is_linebreak (c : char) : bool :=
  in_range 10 13 c || in_range 28 30 c || (c =? 133) || (c =? 8232)
  || (c =? 8233).

(** The ASCII letters and digits. *)
Definition ascii_alnum (c : char) : bool :=
  in_range 48 57 c || in_range 65 90 c || in_range 97 122 c.

(** The alphanumerics of the Latin-1 supplement (letters, superscript
    digits and vulgar fractions). *)
Definition latin1_alnum (c : char) : bool :=
  (c =? 170) || (c =? 178) || (c =? 179) || (c =? 181) || (c =? 185)
  || (c =? 186) || in_range 188 190 c || in_range 192 214 c
  || in_range 216 246 c || in_range 248 255 c.

(** The part of the Unicode character database that lies above Latin-1:
    which code points are alphanumeric, and how each is lower-cased. *)
Class UnicodeDB := {
  uni_alnum : char -> bool;
  uni_lower : char -> str
}.

(** A database that knows nothing above Latin-1; it is consulted by no
    computation on text made of code points below 256. *)
Definition latin1_db : UnicodeDB :=
  {| uni_alnum := fun _ => false; uni_lower := fun c => [c] |}.

Section WithDB.
Context {db : UnicodeDB}.

(** [str.isalnum] on one code point. *)
Definition isalnum (c : char) : bool :=
  if c <? 128 then ascii_alnum c
  else if c <? 256 then latin1_alnum c
  else if isspace c then false
  else uni_alnum c.

(** The class [\w] of [re] on [str] patterns: alphanumeric or underscore. *)
Definition is_word (c : char) : bool := isalnum c || (c =? 95).

(** [str.lower] on one code point. *)
Definition lower_char (c : char) : str :=
  if in_range 65 90 c then [c + 32]
  else if c <? 128 then [c]
  else if c <? 256 then
    (if (in_range 192 214 c || in_range 216 222 c) then [c + 32] else [c])
  else uni_lower c.

Definition lower (s : str) : str := flat_map lower_char s.

End WithDB.

(** [s.lstrip(chars)], [s.rstrip(chars)] and [s.strip(chars)], the set of
    characters given as a predicate. *)
Fixpoint lstrip_by (f : char -> bool) (s : str) : str :=
  match s with
  | [] => []
  | c :: t => if f c then lstrip_by f t else s
  end.

Fixpoint rstrip_by (f : char -> bool) (s : str) : str :=
  match s with
  | [] => []
  | c :: t =>
      match rstrip_by f t with
      | [] => if f c then [] else [c]
      | t' => c :: t'
      end
  end.

Definition strip_by (f : char -> bool) (s : str) : str :=
  rstrip_by f (lstrip_by f s).

(** [s.strip()]. *)
Definition strip (s : str) : str := strip_by isspace s.

(** [re.sub(CLASS+, "_", s)]: every maximal run of characters of the class
    becomes one underscore. [in_run] says that the previous character was
    in the class. *)
Fixpoint sub_runs_from (cls : char -> bool) (in_run : bool) (s : str) : str :=
  match s with
  | [] => []
  | c :: t =>
      if cls c then
        (if in_run then sub_runs_from cls true t
         else 95 :: sub_runs_from cls true t)
      else c :: sub_runs_from cls false t
  end.

Definition sub_runs (cls : char -> bool) (s : str) : str :=
  sub_runs_from cls false s.

(** [s.startswith(p)] and [s.endswith(p)]. *)
Fixpoint startswith (p s : str) : bool :=
  match p, s with
  | [], _ => true
  | a :: p', b :: s' => (a =? b) && startswith p' s'
  | _ :: _, [] => false
  end.

Definition endswith (p s : str) : bool := startswith (rev p) (rev s).

Definition str_eqb (a b : str) : bool :=
  if list_eq_dec N.eq_dec a b then true else false.

(** [s[:n]] for a Python integer [n]. *)
Definition slice_to (s : str) (n : Z) : str :=
  if (n <? 0)%Z then firstn (List.length s - Z.to_nat (- n))%nat s
  else firstn (Z.to_nat n) s.

(** [s.splitlines()]. [cur] is the line read so far, in reverse. *)
Fixpoint splitlines_from (cur : str) (s : str) : list str :=
  match s with
  | [] => match cur with [] => [] | _ => [rev cur] end
  | c :: t =>
      if is_linebreak c then
        rev cur ::
          match c, t with
          | 13, 10 :: t' => splitlines_from [] t'
          | _, _ => splitlines_from [] t
          end
      else splitlines_from (c :: cur) t
  end.

Definition splitlines (s : str) : list str := splitlines_from [] s.

End PyStr.
Import PyStr.

(* ================================================================= *)
(** ** Utility *)

Section Utility.
Context {db : UnicodeDB}.

(** The class [[^\w\-\.]] of [sanitize_stem]'s first substitution. *)
Definition unsafe_char (c : char) : bool :=
  negb (is_word c || (c =? 45) || (c =? 46)).

Definition is_underscore (c : char) : bool := c =? 95.

(** The value of [name] in [sanitize_stem] before the final slice. *)
Definition clean_stem (name : str) : str :=
  let name := strip name in
  let name := sub_runs unsafe_char name in
  let name := sub_runs is_underscore name in
  match strip_by is_underscore name with
  | [] => u "item"
  | s => s
  end.

(** [sanitize_stem(name, max_len=80)]. *)
Definition sanitize_stem (name : str) (max_len : Z) : str :=
  slice_to (clean_stem name) max_len.

(** The characters of the pattern [[A-Za-z0-9_.-]]. *)
Definition ascii_safe (c : char) : bool :=
  ascii_alnum c || (c =? 95) || (c =? 45) || (c =? 46).

(** No two underscores in a row. *)
Fixpoint no_double_underscore (s : str) : bool :=
  match s with
  | a :: (b :: _) as t =>
      negb (is_underscore a && is_underscore b) && no_double_underscore t
  | _ => true
  end.

End Utility.

(* ================================================================= *)
(** ** pathlib paths *)

Module PyPath.

(** A path is the list of its components; a component holds no separator. *)
Definition path := list str.

Definition path_eqb (p q : path) : bool :=
  if list_eq_dec (list_eq_dec N.eq_dec) p q then true else false.

(** [p.name], [p.parent], [p / name] and [p.with_name(name)], the last
    for a path that has a final component. *)
Definition name (p : path) : str := last p [].
Definition parent (p : path) : path := removelast p.
Definition child (dir : path) (nm : str) : path := dir ++ [nm].
Definition with_name (p : path) (nm : str) : path := child (parent p) nm.

Definition is_child (dir p : path) : bool :=
  match p with
  | [] => false
  | _ => path_eqb (parent p) dir
  end.

(** [nm.rfind(".")]. *)
Fixpoint rfind_dot (nm : str) : option nat :=
  match nm with
  | [] => None
  | c :: t =>
      match rfind_dot t with
      | Some i => Some (S i)
      | None => if c =? 46 then Some O else None
      end
  end.

(** Where [suffix] and [stem] cut a name: at the last dot, unless there is
    none or it is the first or the last character. *)
Definition cut_at (nm : str) : nat :=
  match rfind_dot nm with
  | Some i =>
      if (Nat.ltb 0 i && Nat.ltb i (List.length nm - 1))%nat%bool then i
      else List.length nm
  | None => List.length nm
  end.

Definition name_stem (nm : str) : str := firstn (cut_at nm) nm.
Definition name_suffix (nm : str) : str := skipn (cut_at nm) nm.

(** [p.stem] and [p.suffix]. *)
Definition stem (p : path) : str := name_stem (name p).
Definition suffix (p : path) : str := name_suffix (name p).

(** The order of [str] and of paths: lexicographic, code point by code
    point and component by component. *)
Section Lex.
Context {A : Type} (leb : A -> A -> bool).

Fixpoint lex_leb (a b : list A) : bool :=
  match a, b with
  | [], _ => true
  | _ :: _, [] => false
  | x :: a', y :: b' =>
      if leb x y then (if leb y x then lex_leb a' b' else true) else false
  end.

End Lex.

Definition str_leb : str -> str -> bool := lex_leb N.leb.
Definition path_leb : path -> path -> bool := lex_leb str_leb.

Definition path_le (p q : path) : Prop := path_leb p q = true.

(** [sorted(paths)]. *)
Fixpoint insert_sorted (p : path) (l : list path) : list path :=
  match l with
  | [] => [p]
  | q :: t => if path_leb p q then p :: l else q :: insert_sorted p t
  end.

Definition sorted (l : list path) : list path :=
  fold_right insert_sorted [] l.

End PyPath.
Import PyPath.

(* ================================================================= *)
(** ** Exceptions and the log *)

Inductive exn :=
| TimeoutError            (* "Download did not complete in time" *)
| RuntimeError            (* "Could not generate unique filename for ..." *)
| FileNotFoundError       (* raised by [Path.stat] on a file that is gone *)
| UnicodeDecodeError      (* raised by [Path.read_text] on bytes that are not UTF-8 *)
| OSError (errno : nat)   (* raised by [Path.read_text] when the file cannot be read *)
| WebDriverException (code : nat).   (* raised by the browser session *)

Inductive result (A : Type) :=
| Ok (a : A)
| Raise (e : exn).
Arguments Ok {A} a.
Arguments Raise {A} e.

(** One printed line. The indices [i] and [j] of a pair's line are the
    positions of its font and phrase in the run; they are not printed. *)
Inductive LogLine :=
| ErrPhraseFileNotFound (p : path)   (* [ERROR] Phrase file not found *)
| WarnNoUsablePhrases                (* [WARNING] Phrase file contains no usable phrases. *)
| ErrNoValidPhrases                  (* [ERROR] No valid phrases loaded. Exiting. *)
| WarnSkipNonTTF (p : path)          (* [WARNING] Skipping non-TTF file *)
| OkLine (i j : nat) (font_name phrase final_name : str)   (* [OK] *)
| ErrPairLine (i j : nat) (font_name phrase : str) (e : exn)   (* [ERROR] font + 'phrase' *)
| ErrFontLine (i : nat) (font : path) (e : exn).   (* [ERROR] Failed processing font *)

(* ================================================================= *)
(** ** Phrases and fonts *)

Section Loading.
Context {db : UnicodeDB}.

(** The body of the [for line in ...splitlines()] loop of [load_phrases]:
    [phrases] is the list built so far. *)
Fixpoint load_phrases_loop (phrases : list str) (lines : list str) : list str :=
  match lines with
  | [] => phrases
  | line :: rest =>
      let s := strip line in
      match s with
      | [] => load_phrases_loop phrases rest
      | _ =>
          if startswith (u "#") s then load_phrases_loop phrases rest
          else load_phrases_loop (phrases ++ [s]) rest
      end
  end.

(** What [path.exists()] and [path.read_text(encoding="utf-8")] meet:
    no file, a file that cannot be read or decoded, so that [read_text]
    raises, or the text of the file. *)
Inductive FileText :=
| NoFile
| Unreadable (e : exn)
| Text (t : str).

(** [load_phrases(path)] on what the file system has at [path]: the
    result and the lines printed, or what [read_text] raises. *)
Definition load_phrases (p : path) (file : FileText) : result (list str * list LogLine) :=
  match file with
  | NoFile => Ok ([], [ErrPhraseFileNotFound p])
  | Unreadable e => Raise e
  | Text t =>
      let phrases := load_phrases_loop [] (splitlines t) in
      match phrases with
      | [] => Ok ([], [WarnNoUsablePhrases])
      | _ => Ok (phrases, [])
      end
  end.

(** The phrases and the lines of a call that does not raise. *)
Definition loaded (r : result (list str * list LogLine)) : list str * list LogLine :=
  match r with
  | Ok x => x
  | Raise _ => ([], [])
  end.

(** The phrases of a text as the specification words them: the trimmed
    lines that are not empty and do not start with [#], in file order. *)
Definition is_usable (s : str) : bool :=
  negb (str_eqb s []) && negb (startswith (u "#") s).

Definition usable_phrases (text : str) : list str :=
  filter is_usable (map strip (splitlines text)).

(** What the generator [iter_ttf_fonts] does at each step. *)
Inductive FontEvent :=
| Skip (p : path)      (* the warning for a file that is not a font *)
| Yield (p : path).    (* [yield p] *)

Definition is_ttf (p : path) : bool := str_eqb (lower (suffix p)) (u ".ttf").

Fixpoint iter_ttf_fonts_loop (is_file : path -> bool) (l : list path) : list FontEvent :=
  match l with
  | [] => []
  | p :: rest =>
      if negb (is_file p) then iter_ttf_fonts_loop is_file rest
      else if negb (is_ttf p) then Skip p :: iter_ttf_fonts_loop is_file rest
      else Yield p :: iter_ttf_fonts_loop is_file rest
  end.

(** [iter_ttf_fonts(font_dir)]: [tree] is [font_dir.rglob("*")], in the
    order the directory walk gives. *)
Definition iter_ttf_fonts (tree : list path) (is_file : path -> bool) : list FontEvent :=
  iter_ttf_fonts_loop is_file (sorted tree).

Definition yielded (evs : list FontEvent) : list path :=
  flat_map (fun e => match e with Yield p => [p] | Skip _ => [] end) evs.

Definition skipped (evs : list FontEvent) : list path :=
  flat_map (fun e => match e with Skip p => [p] | Yield _ => [] end) evs.

End Loading.

(* ================================================================= *)
(** ** Download handling *)

(** The regular files that exist. *)
Definition FS := path -> bool.

(** [shutil.move(src, dst)] onto a destination that does not exist. *)
Definition fs_move (fs : FS) (src dst : path) : FS :=
  fun p => if path_eqb p dst then true
           else if path_eqb p src then false
           else fs p.

(** An entry of a directory as one poll sees it. A file that is listed
    can be gone when the watcher comes to [stat] it, for its modification
    time or, after that, for its size: [stat] raises then. *)
Record FileStat := {
  f_name : str;
  f_is_file : bool;
  f_mtime : Z;
  f_size : Z;
  f_gone_mtime : bool;
  f_gone_size : bool
}.

(** One turn of the watcher's loop as the environment decides it: the
    entries of the download directory, the milliseconds that pass between
    the clock reading of the loop test and the one of [now], and those by
    which the sleep of 200 ms overruns. *)
Record Poll := {
  p_listing : list FileStat;
  p_work : N;
  p_over : N
}.

Section Watcher.
Context {db : UnicodeDB}.

(** [is_partial(p)]. *)
Definition is_partial (p : path) : bool :=
  endswith (u ".part") (name p)
  || existsb (str_eqb (lower (suffix p))) [u ".part"; u ".tmp"; u ".crdownload"].

(** [list_files(download_dir)] on the entries of one poll. *)
Definition list_files (listing : list FileStat) : list FileStat :=
  filter f_is_file listing.

(** [max(new, key=lambda p: p.stat().st_mtime)] when every [stat]
    succeeds: the first entry of the largest modification time. *)
Fixpoint max_by_mtime (best : FileStat) (l : list FileStat) : FileStat :=
  match l with
  | [] => best
  | x :: t =>
      if (f_mtime best <? f_mtime x)%Z then max_by_mtime x t
      else max_by_mtime best t
  end.

Definition size_differs (last_size : option Z) (size : Z) : bool :=
  match last_size with
  | None => true
  | Some s => negb (s =? size)%Z
  end.

Section Loop.
Variable download_dir : path.
Variable before : path -> bool.
Variable deadline : Z.
Variable polls : nat -> Poll.

(** [[p for p in (after - before) if p.is_file() and not is_partial(p)]]. *)
Definition new_files (k : nat) : list FileStat :=
  filter (fun f => f_is_file f && negb (is_partial (child download_dir (f_name f))))
    (filter (fun f => negb (before (child download_dir (f_name f))))
       (list_files (p_listing (polls k)))).

(** The clock at the next loop test: the work of this turn, the sleep
    and its overrun. *)
Definition next_tick (k : nat) (t : Z) : Z :=
  (t + Z.of_N (p_work (polls k)) + 200 + Z.of_N (p_over (polls k)))%Z.

(** The [while time.time() < deadline] loop. [k] counts the turns, [t] is
    the clock at the loop test; [fuel] bounds the turns left. *)
Fixpoint poll_loop (fuel : nat) (k : nat) (t : Z)
    (last_size stable_since : option Z) : result path :=
  match fuel with
  | O => Raise TimeoutError
  | S fuel' =>
      if (t <? deadline)%Z then
        match new_files k with
        | [] => poll_loop fuel' (S k) (next_tick k t) last_size stable_since
        | x :: rest =>
            if existsb f_gone_mtime (x :: rest) then Raise FileNotFoundError
            else
              let candidate := max_by_mtime x rest in
              if f_gone_size candidate then Raise FileNotFoundError
              else
                let size := f_size candidate in
                let now := (t + Z.of_N (p_work (polls k)))%Z in
                if size_differs last_size size then
                  poll_loop fuel' (S k) (next_tick k t) (Some size) (Some now)
                else
                  match stable_since with
                  | Some since =>
                      if (1000 <=? now - since)%Z
                      then Ok (child download_dir (f_name candidate))
                      else poll_loop fuel' (S k) (next_tick k t) last_size stable_since
                  | None => poll_loop fuel' (S k) (next_tick k t) last_size stable_since
                  end
        end
      else Raise TimeoutError
  end.

(** The loop as the source runs it, with no bound on the turns. *)
Inductive poll_run : nat -> Z -> option Z -> option Z -> result path -> Prop :=
| run_deadline k t ls ss :
    (deadline <= t)%Z ->
    poll_run k t ls ss (Raise TimeoutError)
| run_nothing_new k t ls ss r :
    (t < deadline)%Z ->
    new_files k = [] ->
    poll_run (S k) (next_tick k t) ls ss r ->
    poll_run k t ls ss r
| run_mtime_raises k t ls ss x rest :
    (t < deadline)%Z ->
    new_files k = x :: rest ->
    existsb f_gone_mtime (x :: rest) = true ->
    poll_run k t ls ss (Raise FileNotFoundError)
| run_size_raises k t ls ss x rest :
    (t < deadline)%Z ->
    new_files k = x :: rest ->
    existsb f_gone_mtime (x :: rest) = false ->
    f_gone_size (max_by_mtime x rest) = true ->
    poll_run k t ls ss (Raise FileNotFoundError)
| run_size_changed k t ls ss x rest r :
    (t < deadline)%Z ->
    new_files k = x :: rest ->
    existsb f_gone_mtime (x :: rest) = false ->
    f_gone_size (max_by_mtime x rest) = false ->
    size_differs ls (f_size (max_by_mtime x rest)) = true ->
    poll_run (S k) (next_tick k t) (Some (f_size (max_by_mtime x rest)))
      (Some (t + Z.of_N (p_work (polls k)))%Z) r ->
    poll_run k t ls ss r
| run_return k t ls since x rest :
    (t < deadline)%Z ->
    new_files k = x :: rest ->
    existsb f_gone_mtime (x :: rest) = false ->
    f_gone_size (max_by_mtime x rest) = false ->
    size_differs ls (f_size (max_by_mtime x rest)) = false ->
    (1000 <= t + Z.of_N (p_work (polls k)) - since)%Z ->
    poll_run k t ls (Some since)
      (Ok (child download_dir (f_name (max_by_mtime x rest))))
| run_wait k t ls ss x rest r :
    (t < deadline)%Z ->
    new_files k = x :: rest ->
    existsb f_gone_mtime (x :: rest) = false ->
    f_gone_size (max_by_mtime x rest) = false ->
    size_differs ls (f_size (max_by_mtime x rest)) = false ->
    match ss with
    | Some since => (t + Z.of_N (p_work (polls k)) - since < 1000)%Z
    | None => True
    end ->
    poll_run (S k) (next_tick k t) ls ss r ->
    poll_run k t ls ss r.

End Loop.

(** [wait_for_new_download(download_dir, before, timeout_s)] entered when
    the clock reads [t0]. Each turn takes 200 ms or more, so the loop test
    is reached at most [5 * timeout_s + 1] times. *)
Definition wait_for_new_download (download_dir : path) (before : path -> bool)
    (timeout_s : Z) (t0 : Z) (polls : nat -> Poll) : result path :=
  poll_loop download_dir before (t0 + 1000 * timeout_s)%Z polls
    (S (Z.to_nat (5 * timeout_s))) O t0 None None.

End Watcher.

(** A download directory as six polls and more see it, 200 ms apart: the
    file [a.stl] keeps its 5 bytes for the first five polls; from the sixth
    poll on it grows, and a newer file [b.stl] is there, which has 5 bytes
    at that poll and one byte more at each later poll. *)
Definition entry (nm : string) (mtime size : Z) : FileStat :=
  {| f_name := u nm; f_is_file := true; f_mtime := mtime; f_size := size;
     f_gone_mtime := false; f_gone_size := false |}.

Definition overtaken_polls (k : nat) : Poll :=
  if Nat.ltb k 5 then
    {| p_listing := [entry "a.stl" 0 5]; p_work := 0; p_over := 0 |}
  else
    {| p_listing := [entry "a.stl" (2 * Z.of_nat k) (6 + Z.of_nat k);
                     entry "b.stl" (2 * Z.of_nat k + 1) (Z.of_nat k)];
       p_work := 0; p_over := 0 |}.

(** A file of the given name and size is among the entries of a poll. *)
Definition seen_with_size (p : Poll) (nm : str) (size : Z) : Prop :=
  exists f, In f (p_listing p) /\ f_name f = nm /\ f_size f = size.

(** [f"{i:02d}"]. *)
Definition fmt_02d (i : nat) : str :=
  let digits := u (NilEmpty.string_of_uint (Nat.to_uint i)) in
  match digits with
  | [d] => [48; d]
  | _ => digits
  end.

(** [dst.with_name(f"{stem}_{i:02d}{suffix}")]. *)
Definition numbered (dst : path) (i : nat) : path :=
  with_name dst (stem dst ++ u "_" ++ fmt_02d i ++ suffix dst).

(** The [for i in range(1, 10000)] loop of [safe_move], from [i] on with
    [n] values left: the first candidate that does not exist. *)
Fixpoint first_free (fs : FS) (dst : path) (i n : nat) : option path :=
  match n with
  | O => None
  | S n' =>
      let cand := numbered dst i in
      if fs cand then first_free fs dst (S i) n' else Some cand
  end.

(** [safe_move(src, dst)]: the path moved to and the file system after. *)
Definition safe_move (fs : FS) (src dst : path) : result (path * FS) :=
  if negb (fs dst) then Ok (dst, fs_move fs src dst)
  else
    match first_free fs dst 1 9999 with
    | Some cand => Ok (cand, fs_move fs src cand)
    | None => Raise RuntimeError
    end.

(* ================================================================= *)
(** ** The batch loop *)

(** Sequencing of calls that may raise. *)
Definition bind {A B : Type} (c : result A) (k : A -> result B) : result B :=
  match c with
  | Ok a => k a
  | Raise e => Raise e
  end.

Notation "x <- c ;; k" := (bind c (fun x => k))
  (at level 61, c at next level, right associativity).
Notation "c ;;; k" := (bind c (fun _ => k))
  (at level 61, right associativity).

(** The arguments of the command line that the batch loop reads. *)
Record Args := {
  a_fonts : path;
  a_output : path;
  a_tmp : path;
  a_phrases : path;
  a_download_timeout : Z
}.

(** What the run meets outside the program: the phrase file, the font
    directory, the browser session, and what the browser writes into the
    download directory. The [i]-th font yielded and the [j]-th phrase
    index the calls of the session. *)
Record World := {
  w_phrase_text : FileText;
  w_font_tree : list path;
  w_is_file : path -> bool;
  w_make_driver : result unit;
  (* [driver.get(URL)], [wait_for_ui_ready] and [upload_font] *)
  w_setup : nat -> result unit;
  w_set_phrase : nat -> nat -> result unit;
  w_click_download : nat -> nat -> result unit;
  (* the files the browser has left in the download directory *)
  w_leftover : nat -> nat -> list str;
  (* the clock when the watcher is entered, and its polls *)
  w_clock : nat -> nat -> Z;
  w_polls : nat -> nat -> nat -> Poll
}.

Record State := {
  st_fs : FS;
  st_log : list LogLine
}.

Definition print (st : State) (l : LogLine) : State :=
  {| st_fs := st_fs st; st_log := st_log st ++ [l] |}.

Inductive Driver := NotStarted | Closed.

Record Outcome := {
  o_state : State;
  o_driver : Driver
}.

Section Batch.
Context {db : UnicodeDB}.
Variable args : Args.
Variable w : World.

(** [list_files(args.tmp)] in [main]: the files of the download directory,
    those the run knows of and those the browser left, as a set. *)
Definition snapshot (fs : FS) (i j : nat) : path -> bool :=
  fun p => (is_child (a_tmp args) p && fs p)
           || existsb (path_eqb p) (map (child (a_tmp args)) (w_leftover w i j)).

Definition out_name (font : path) (phrase : str) : str :=
  sanitize_stem (stem font) 80 ++ u "__" ++ sanitize_stem phrase 80 ++ u ".stl".

(** The body of the inner [try]: the path of the artifact and the file
    system after it. *)
Definition process_pair (font : path) (i j : nat) (phrase : str) (fs : FS)
    : result (path * FS) :=
  w_set_phrase w i j ;;;
  let before := snapshot fs i j in
  w_click_download w i j ;;;
  downloaded <- wait_for_new_download (a_tmp args) before
                  (a_download_timeout args) (w_clock w i j) (w_polls w i j) ;;
  safe_move fs downloaded (child (a_output args) (out_name font phrase)).

(** The inner [try] and its [except]: one line is printed either way,
    and a pair that fails leaves the file system as it found it. *)
Definition try_pair (font : path) (i j : nat) (phrase : str) (st : State) : State :=
  match process_pair font i j phrase (st_fs st) with
  | Ok (final_path, fs') =>
      {| st_fs := fs';
         st_log := st_log st ++ [OkLine i j (name font) phrase (name final_path)] |}
  | Raise e => print st (ErrPairLine i j (name font) phrase e)
  end.

(** [for phrase in phrases], from the [j]-th phrase on. *)
Fixpoint phrase_loop (font : path) (i j : nat) (phrases : list str)
    (st : State) : State :=
  match phrases with
  | [] => st
  | phrase :: rest => phrase_loop font i (S j) rest (try_pair font i j phrase st)
  end.

(** The outer [try] and its [except]: the set-up of the font, then its
    phrases. *)
Definition try_font (phrases : list str) (font : path) (i : nat) (st : State) : State :=
  match w_setup w i with
  | Ok _ => phrase_loop font i O phrases st
  | Raise e => print st (ErrFontLine i font e)
  end.

(** [for font_path in iter_ttf_fonts(args.fonts)], from the [i]-th font
    on; the warnings of the generator are printed as it is advanced. *)
Fixpoint font_loop (phrases : list str) (i : nat) (evs : list FontEvent)
    (st : State) : State :=
  match evs with
  | [] => st
  | Skip p :: rest => font_loop phrases i rest (print st (WarnSkipNonTTF p))
  | Yield font :: rest => font_loop phrases (S i) rest (try_font phrases font i st)
  end.








(** [main()], started on the file system [fs0]. It raises when the
    phrase file cannot be read and when the browser cannot be started. *)
Definition main (fs0 : FS) : result Outcome :=
  loaded_phrases <- load_phrases (a_phrases args) (w_phrase_text w) ;;
  let '(phrases, lines) := loaded_phrases in
  match phrases with
  | [] =>
      Ok {| o_state := {| st_fs := fs0; st_log := lines ++ [ErrNoValidPhrases] |};
            o_driver := NotStarted |}
  | _ =>
      w_make_driver w ;;;
      let st := font_loop phrases O
                  (iter_ttf_fonts (w_font_tree w) (w_is_file w))
                  {| st_fs := fs0; st_log := lines |} in
      Ok {| o_state := st; o_driver := Closed |}
  end.

(** What the line of the pair [(i, j)] looks like. *)
Definition line_of_pair (font : path) (i j : nat) (phrase : str) (l : LogLine) : Prop :=
  match l with
  | OkLine i' j' fn ph final =>
      i' = i /\ j' = j /\ fn = name font /\ ph = phrase
      /\ w_set_phrase w i j = Ok tt /\ w_click_download w i j = Ok tt
      /\ (final = out_name font phrase
          \/ exists k, (1 <= k <= 9999)%nat
                       /\ final = name (numbered (child (a_output args)
                                                    (out_name font phrase)) k))
  | ErrPairLine i' j' fn ph e =>
      i' = i /\ j' = j /\ fn = name font /\ ph = phrase
      /\ (forall e', w_set_phrase w i j = Raise e' -> e = e')
      /\ (forall e', w_set_phrase w i j = Ok tt ->
                     w_click_download w i j = Raise e' -> e = e')
  | _ => False
  end.

(** The lines of the phrases of one font, from the [j]-th phrase on. *)
Inductive phrase_lines (font : path) (i : nat) : nat -> list str -> list LogLine -> Prop :=
| pl_nil j : phrase_lines font i j [] []
| pl_cons j phrase rest l ls :
    line_of_pair font i j phrase l ->
    phrase_lines font i (S j) rest ls ->
    phrase_lines font i j (phrase :: rest) (l :: ls).

(** The lines of a run of the outer loop, from the [i]-th font on. *)
Inductive font_lines (phrases : list str) : nat -> list FontEvent -> list LogLine -> Prop :=
| fl_nil i : font_lines phrases i [] []
| fl_skip i p evs ls :
    font_lines phrases i evs ls ->
    font_lines phrases i (Skip p :: evs) (WarnSkipNonTTF p :: ls)
| fl_setup_failed i font e evs ls :
    w_setup w i = Raise e ->
    font_lines phrases (S i) evs ls ->
    font_lines phrases i (Yield font :: evs) (ErrFontLine i font e :: ls)
| fl_font i font block evs ls :
    w_setup w i = Ok tt ->
    phrase_lines font i O phrases block ->
    font_lines phrases (S i) evs ls ->
    font_lines phrases i (Yield font :: evs) (block ++ ls).

Definition setup_ok (i : nat) : bool :=
  match w_setup w i with Ok _ => true | Raise _ => false end.

(** The pairs that a run attempts: for each font whose set-up succeeds,
    all the phrases in order. [i] is the index of the first font. *)
Fixpoint schedule (n : nat) (i : nat) (fonts : list path) : list (nat * nat) :=
  match fonts with
  | [] => []
  | _ :: rest =>
      (if setup_ok i then map (pair i) (seq 0 n) else []) ++ schedule n (S i) rest
  end.

(** What a line of a run says, [fonts] being the fonts from the [i]-th
    on: a line names a pair of the run, or a font whose set-up failed, or
    a file that was skipped. *)
Definition line_sound (phrases : list str) (i : nat) (fonts skips : list path)
    (l : LogLine) : Prop :=
  match l with
  | WarnSkipNonTTF p => In p skips
  | ErrFontLine i' font e =>
      (i <= i')%nat /\ nth_error fonts (i' - i) = Some font
      /\ w_setup w i' = Raise e
  | OkLine i' j _ ph _ | ErrPairLine i' j _ ph _ =>
      (i <= i')%nat
      /\ exists font, nth_error fonts (i' - i) = Some font
           /\ w_setup w i' = Ok tt
           /\ nth_error phrases j = Some ph
           /\ line_of_pair font i' j ph l
  | _ => False
  end.

End Batch.

(** The paths of the artifacts that a log reports, and the pairs it
    reports on, in the order of the lines. *)
Definition artifacts (output : path) (log : list LogLine) : list path :=
  flat_map (fun l => match l with
                     | OkLine _ _ _ _ final => [child output final]
                     | _ => []
                     end) log.

Definition pair_lines (log : list LogLine) : list (nat * nat) :=
  flat_map (fun l => match l with
                     | OkLine i j _ _ _ => [(i, j)]
                     | ErrPairLine i j _ _ _ => [(i, j)]
                     | _ => []
                     end) log.

(** A part of a run that takes the state [st] to [st'] and prints
    [lines]: no file is lost, the files gained are the artifacts of the
    lines, each at a path of its own that was free. *)
Definition extends (output : path) (st st' : State) (lines : list LogLine) : Prop :=
  st_log st' = st_log st ++ lines
  /\ (forall q, st_fs st q = true -> st_fs st' q = true)
  /\ (forall q, st_fs st' q = true ->
                st_fs st q = true \/ In q (artifacts output lines))
  /\ NoDup (artifacts output lines)
  /\ (forall a, In a (artifacts output lines) ->
                st_fs st a = false /\ st_fs st' a = true).

(** A world for examples: every file of [tree] is regular, the browser
    works but for the phrases on which [render_fails], and every download
    is a file [text.stl] of 10 bytes that is there from the first poll. *)
Definition steady_poll : Poll :=
  {| p_listing := [entry "text.stl" 1 10]; p_work := 0; p_over := 0 |}.

Definition demo_world (tree : list path) (text : str)
    (render_fails : nat -> nat -> bool) : World :=
  {| w_phrase_text := Text text;
     w_font_tree := tree;
     w_is_file := fun _ => true;
     w_make_driver := Ok tt;
     w_setup := fun _ => Ok tt;
     w_set_phrase := fun i j =>
       if render_fails i j then Raise (WebDriverException 0) else Ok tt;
     w_click_download := fun _ _ => Ok tt;
     w_leftover := fun _ _ => [];
     w_clock := fun _ _ => 0%Z;
     w_polls := fun _ _ _ => steady_poll |}.

Definition demo_args : Args :=
  {| a_fonts := [u "fonts"];
     a_output := [u "out"];
     a_tmp := [u "tmp"];
     a_phrases := [u "phrases.txt"];
     a_download_timeout := 180 |}.

Definition no_files : FS := fun _ => false.




Definition never : nat -> nat -> bool := fun _ _ => false.

(** The outcome of a run that does not raise. *)
Definition outcome_of (r : result Outcome) : Outcome :=
  match r with
  | Ok o => o
  | Raise _ => {| o_state := {| st_fs := no_files; st_log := [] |};
                  o_driver := NotStarted |}
  end.



(* ================================================================= *)
(** ** Notions for the properties of the watcher *)

Section WatcherNotions.
Context {db : UnicodeDB}.
Variable download_dir : path.
Variable before : path -> bool.
Variable polls : nat -> Poll.
Variable t0 : Z.

(** The clock at the [k]-th loop test of a watcher entered at [t0]. *)
Fixpoint tick (k : nat) : Z :=
  match k with
  | O => t0
  | S k' => next_tick polls k' (tick k')
  end.

(** The clock when the [k]-th turn reads [now]. *)
Definition now_at (k : nat) : Z := (tick k + Z.of_N (p_work (polls k)))%Z.

(** The candidate of the [k]-th turn, if that turn finds a new file and
    can read the modification times, and the size of the candidate, if
    that can be read. *)
Definition candidate (k : nat) : option FileStat :=
  match new_files download_dir before polls k with
  | [] => None
  | x :: rest =>
      if existsb f_gone_mtime (x :: rest) then None
      else Some (max_by_mtime x rest)
  end.

Definition candidate_size (k : nat) : option Z :=
  match candidate k with
  | Some f => if f_gone_size f then None else Some (f_size f)
  | None => None
  end.

End WatcherNotions.

(* ================================================================= *)
(** ** Notions for the properties of the relocator *)

(** [safe_move] of one source after the other to the same destination:
    the paths moved to, in order, and the file system after. *)
Fixpoint safe_move_all (fs : FS) (srcs : list path) (dst : path)
    : result (list path * FS) :=
  match srcs with
  | [] => Ok ([], fs)
  | src :: rest =>
      match safe_move fs src dst with
      | Raise e => Raise e
      | Ok (p, fs') =>
          match safe_move_all fs' rest dst with
          | Raise e => Raise e
          | Ok (ps, fs'') => Ok (p :: ps, fs'')
          end
      end
  end.

(** The destination and its numbered variants up to [n]: the names that
    [n + 1] moves to a free destination take. *)
Definition targets (dst : path) (n : nat) : list path :=
  dst :: map (numbered dst) (seq 1 n).

(** A phrase file written from a list of phrases, one to a line. *)
Definition phrase_file (phrases : list str) : str :=
  List.concat (map (fun s => s ++ [10]) phrases).

(** The path an event of the font enumerator is about. *)
Definition event_path (e : FontEvent) : path :=
  match e with Skip p => p | Yield p => p end.

(** The files that a log warns about and the fonts that it reports as
    failed, in the order of the lines. *)
Definition warned (log : list LogLine) : list path :=
  flat_map (fun l => match l with WarnSkipNonTTF p => [p] | _ => [] end) log.

Definition font_errors (log : list LogLine) : list (nat * path * exn) :=
  flat_map (fun l => match l with
                     | ErrFontLine i font e => [(i, font, e)]
                     | _ => []
                     end) log.

(** The fonts whose set-up fails, with what it raises; [i] is the index
    of the first font. *)
Fixpoint failed_setups (w : World) (i : nat) (fonts : list path)
    : list (nat * path * exn) :=
  match fonts with
  | [] => []
  | font :: rest =>
      match w_setup w i with
      | Raise e => [(i, font, e)]
      | Ok _ => []
      end ++ failed_setups w (S i) rest
  end.

(* ================================================================= *)
(** * Properties *)

(** Comparisons on code points as propositions. *)
Ltac b2p :=
  repeat first
    [ rewrite orb_true_iff in * | rewrite andb_true_iff in *
    | rewrite orb_false_iff in * | rewrite andb_false_iff in *
    | rewrite negb_true_iff in * | rewrite negb_false_iff in *
    | rewrite N.leb_le in * | rewrite N.leb_gt in *
    | rewrite N.ltb_lt in * | rewrite N.ltb_ge in *
    | rewrite N.eqb_eq in * | rewrite N.eqb_neq in * ].

(** ** Stripping and substitution *)

Section StripLemmas.
Variable f : char -> bool.

Lemma lstrip_by_split (s : str) :
  exists pre, s = pre ++ lstrip_by f s /\ Forall (fun c => f c = true) pre.
Proof.
  induction s as [|c t [pre [E F]]]; simpl.
  - exists []. auto.
  - destruct (f c) eqn:Fc.
    + exists (c :: pre). split; [simpl; congruence | constructor; auto].
    + exists []. auto.
Qed.

Lemma rstrip_by_split (s : str) :
  exists suf, s = rstrip_by f s ++ suf /\ Forall (fun c => f c = true) suf.
Proof.
  induction s as [|c t [suf [E F]]]; simpl.
  - exists []. auto.
  - destruct (rstrip_by f t) as [|d r] eqn:R.
    + simpl in E. subst suf. destruct (f c) eqn:Fc.
      * exists (c :: t). auto.
      * exists t. auto.
    + exists suf. split; [simpl; f_equal; exact E | assumption].
Qed.

Lemma rstrip_by_last (s : str) (d : char) :
  rstrip_by f s <> [] -> f (last (rstrip_by f s) d) = false.
Proof.
  induction s as [|c t IH]; simpl; [congruence|].
  destruct (rstrip_by f t) as [|e r] eqn:R.
  - destruct (f c) eqn:Fc; [congruence | auto].
  - intros _. apply IH. congruence.
Qed.

Lemma rstrip_by_fixed (s : str) (d : char) :
  s <> [] -> f (last s d) = false -> rstrip_by f s = s.
Proof.
  induction s as [|c t IH]; [congruence|]. intros _ L.
  destruct t as [|e r].
  - simpl in *. now rewrite L.
  - change (last (c :: e :: r) d) with (last (e :: r) d) in L.
    simpl. simpl in IH. rewrite IH; [reflexivity | congruence | exact L].
Qed.

Lemma rstrip_by_keeps_head (c : char) (t : str) :
  f c = false -> exists r, rstrip_by f (c :: t) = c :: r.
Proof.
  intros Fc. simpl. destruct (rstrip_by f t) as [|e r].
  - rewrite Fc. now exists [].
  - now exists (e :: r).
Qed.

Lemma lstrip_by_head (s : str) :
  match lstrip_by f s with [] => True | c :: _ => f c = false end.
Proof.
  induction s as [|c t IH]; simpl; [exact I|].
  destruct (f c) eqn:Fc; [exact IH | exact Fc].
Qed.

Lemma lstrip_by_fixed (s : str) :
  match s with [] => True | c :: _ => f c = false end -> lstrip_by f s = s.
Proof. destruct s as [|c t]; simpl; [reflexivity|]. now intros ->. Qed.

Lemma strip_by_split (s : str) :
  exists pre suf, s = pre ++ strip_by f s ++ suf.
Proof.
  unfold strip_by. destruct (lstrip_by_split s) as [pre [E _]].
  destruct (rstrip_by_split (lstrip_by f s)) as [suf [E' _]].
  exists pre, suf. now rewrite <- E'.
Qed.

Lemma strip_by_Forall (P : char -> Prop) (s : str) :
  Forall P s -> Forall P (strip_by f s).
Proof.
  intros F. destruct (strip_by_split s) as [pre [suf E]].
  rewrite E in F. apply Forall_app in F as [_ F].
  now apply Forall_app in F as [F _].
Qed.

Lemma strip_by_head (s : str) :
  match strip_by f s with [] => True | c :: _ => f c = false end.
Proof.
  unfold strip_by. pose proof (lstrip_by_head s) as H.
  destruct (lstrip_by f s) as [|c t]; simpl; [exact I|].
  destruct (rstrip_by_keeps_head c t H) as [r E]. simpl in E. now rewrite E.
Qed.

Lemma strip_by_last (s : str) (d : char) :
  strip_by f s <> [] -> f (last (strip_by f s) d) = false.
Proof. apply rstrip_by_last. Qed.

Lemma strip_by_fixed (s : str) (d : char) :
  match s with [] => True | c :: _ => f c = false end ->
  f (last s d) = false -> strip_by f s = s.
Proof.
  intros H L. unfold strip_by. rewrite (lstrip_by_fixed s H).
  destruct s as [|c t]; [reflexivity|]. now apply rstrip_by_fixed with d.
Qed.

End StripLemmas.

Section SubLemmas.
Variable cls : char -> bool.

Lemma sub_runs_from_chars (b : bool) (s : str) :
  Forall (fun c => c = 95 \/ (cls c = false /\ In c s)) (sub_runs_from cls b s).
Proof.
  revert b. induction s as [|c t IH]; intros b; simpl; [constructor|].
  assert (W : forall b', Forall (fun x => x = 95 \/ (cls x = false /\ (c = x \/ In x t)))
                           (sub_runs_from cls b' t)).
  { intros b'. eapply Forall_impl; [|apply IH]. simpl. intuition. }
  destruct (cls c) eqn:C.
  - destruct b; [apply W | constructor; [now left | apply W]].
  - constructor; [right; auto | apply W].
Qed.

Lemma sub_runs_from_fixed (b : bool) (s : str) :
  Forall (fun c => cls c = false) s -> sub_runs_from cls b s = s.
Proof.
  intros F. revert b. induction F as [|c t C F IH]; intros b; simpl; [reflexivity|].
  now rewrite C, IH.
Qed.

End SubLemmas.

(** ** The name sanitizer *)

Section Sanitizer.
Context {db : UnicodeDB}.

Lemma no_double_underscore_app_l (a b : str) :
  no_double_underscore (a ++ b) = true -> no_double_underscore a = true.
Proof.
  induction a as [|x a IH]; [reflexivity|].
  destruct a as [|y a]; [reflexivity|].
  simpl. simpl in IH. intros H. apply andb_true_iff in H as [H1 H2].
  now rewrite H1, IH.
Qed.

Lemma no_double_underscore_app_r (a b : str) :
  no_double_underscore (a ++ b) = true -> no_double_underscore b = true.
Proof.
  induction a as [|x a IH]; [auto|].
  intros H. apply IH. destruct a as [|y a].
  - simpl in *. destruct b; [reflexivity|].
    now apply andb_true_iff in H as [_ H].
  - simpl in H. now apply andb_true_iff in H as [_ H].
Qed.

(** The second substitution leaves no two underscores in a row. *)
Lemma collapse_no_double (b : bool) (s : str) :
  no_double_underscore
    (if b then 95 :: sub_runs_from is_underscore b s
     else sub_runs_from is_underscore b s) = true.
Proof.
  revert b. induction s as [|c t IH]; intros b.
  - destruct b; reflexivity.
  - simpl sub_runs_from. destruct (is_underscore c) eqn:C.
    + destruct b.
      * apply (IH true).
      * apply (IH true).
    + pose proof (IH false) as H. simpl in H.
      destruct b.
      * change (no_double_underscore (95 :: c :: sub_runs_from is_underscore false t))
          with (negb (is_underscore 95 && is_underscore c)
                && no_double_underscore (c :: sub_runs_from is_underscore false t)).
        rewrite C, andb_false_r. simpl negb. rewrite andb_true_l.
        destruct (sub_runs_from is_underscore false t) as [|d r] eqn:R; [reflexivity|].
        change (negb (is_underscore c && is_underscore d)
                && no_double_underscore (d :: r) = true).
        now rewrite C, H.
      * destruct (sub_runs_from is_underscore false t) as [|d r] eqn:R; [reflexivity|].
        change (negb (is_underscore c && is_underscore d)
                && no_double_underscore (d :: r) = true).
        now rewrite C, H.
Qed.

(** On a text without two underscores in a row it changes nothing. *)
Lemma collapse_fixed (b : bool) (s : str) :
  no_double_underscore (if b then 95 :: s else s) = true ->
  sub_runs_from is_underscore b s = s.
Proof.
  revert b. induction s as [|c t IH]; intros b H; [reflexivity|].
  simpl. destruct (is_underscore c) eqn:C.
  - destruct b.
    + simpl in H. rewrite C in H. discriminate.
    + f_equal; [unfold is_underscore in C; now apply N.eqb_eq in C|].
      apply (IH true). unfold is_underscore in C. apply N.eqb_eq in C. now subst c.
  - f_equal. apply (IH false).
    apply (no_double_underscore_app_r [c] t).
    destruct b; [|exact H].
    change (negb (is_underscore 95 && is_underscore c)
            && no_double_underscore (c :: t) = true) in H.
    now apply andb_true_iff in H as [_ H].
Qed.

Lemma underscore_is_safe : unsafe_char 95 = false.
Proof. reflexivity. Qed.

(** A character that [sanitize_stem] keeps is no white space. *)
Lemma safe_not_space (c : char) : unsafe_char c = false -> isspace c = false.
Proof.
  unfold unsafe_char, is_word, isalnum. intros H.
  apply not_true_is_false. intros S.
  destruct (c <? 128) eqn:E1; [|destruct (c <? 256) eqn:E2; [|rewrite S in H]];
    unfold isspace, ascii_alnum, latin1_alnum, in_range in *; b2p; lia.
Qed.

(** Below 128 the characters kept are those of [[A-Za-z0-9_.-]]. *)
Lemma safe_ascii (c : char) :
  c < 128 -> unsafe_char c = false -> ascii_safe c = true.
Proof.
  unfold unsafe_char, ascii_safe, is_word, isalnum. intros L H.
  apply N.ltb_lt in L. rewrite L in H. apply negb_false_iff in H.
  exact H.
Qed.

(** What [clean_stem] returns: it is not empty, holds only characters
    outside the substituted class, no two underscores in a row and none
    at either end; and each character comes from the input, or is an
    underscore, or a letter of the placeholder. *)
Lemma clean_stem_shape (s : str) :
  let t := clean_stem s in
  t <> []
  /\ Forall (fun c => unsafe_char c = false) t
  /\ no_double_underscore t = true
  /\ match t with [] => True | c :: _ => is_underscore c = false end
  /\ is_underscore (last t 0) = false
  /\ Forall (fun c => In c s \/ c = 95 \/ In c (u "item")) t.
Proof.
  unfold clean_stem.
  set (s1 := strip s).
  set (s2 := sub_runs unsafe_char s1).
  set (s3 := sub_runs is_underscore s2).
  assert (F2 : Forall (fun c => c = 95 \/ (unsafe_char c = false /\ In c s1)) s2)
    by apply sub_runs_from_chars.
  assert (F3 : Forall (fun c => c = 95 \/ (is_underscore c = false /\ In c s2)) s3)
    by apply sub_runs_from_chars.
  assert (S1 : forall c, In c s1 -> In c s).
  { intros c Hc. destruct (strip_by_split isspace s) as [pre [suf E]].
    rewrite E. apply in_or_app. right. apply in_or_app. now left. }
  assert (A3 : Forall (fun c => unsafe_char c = false /\ (In c s \/ c = 95)) s3).
  { eapply Forall_impl; [|exact F3]. simpl. intros c [->|[_ Hc]].
    - split; [apply underscore_is_safe | now right].
    - rewrite Forall_forall in F2. destruct (F2 c Hc) as [->|[U I1]].
      + split; [apply underscore_is_safe | now right].
      + split; [exact U | left; now apply S1]. }
  assert (N3 : no_double_underscore s3 = true) by apply (collapse_no_double false).
  pose proof (strip_by_head is_underscore s3) as Hd.
  pose proof (strip_by_last is_underscore s3 0) as Hl.
  pose proof (strip_by_Forall is_underscore _ s3 A3) as A4.
  destruct (strip_by_split is_underscore s3) as [pre [suf E]].
  destruct (strip_by is_underscore s3) as [|c r] eqn:R.
  - cbv zeta. split; [discriminate|]. split.
    { repeat (apply Forall_cons; [reflexivity|]). apply Forall_nil. }
    repeat (split; [reflexivity|]).
    repeat (apply Forall_cons; [right; right; simpl; tauto|]). apply Forall_nil.
  - cbv zeta. repeat split.
    + discriminate.
    + eapply Forall_impl; [|exact A4]. simpl. tauto.
    + rewrite E in N3. apply no_double_underscore_app_r in N3.
      now apply no_double_underscore_app_l in N3.
    + exact Hd.
    + apply Hl. discriminate.
    + eapply Forall_impl; [|exact A4]. simpl. tauto.
Qed.

Lemma slice_to_80_split (t : str) :
  slice_to t 80 = firstn 80 t.
Proof. reflexivity. Qed.

(** What [sanitize_stem] returns for [max_len = 80]. *)
Lemma sanitize_stem_shape (s : str) :
  let r := sanitize_stem s 80 in
  r <> []
  /\ (List.length r <= 80)%nat
  /\ Forall (fun c => unsafe_char c = false) r
  /\ no_double_underscore r = true
  /\ match r with [] => True | c :: _ => is_underscore c = false end
  /\ Forall (fun c => In c s \/ c = 95 \/ In c (u "item")) r.
Proof.
  unfold sanitize_stem. rewrite slice_to_80_split.
  destruct (clean_stem_shape s) as (NE & A & ND & HD & _ & PR).
  set (t := clean_stem s) in *.
  assert (E : t = firstn 80 t ++ skipn 80 t) by (symmetry; apply firstn_skipn).
  cbv zeta. repeat split.
  - destruct t; [congruence | discriminate].
  - apply firstn_le_length.
  - rewrite E in A. now apply Forall_app in A as [A _].
  - rewrite E in ND. now apply no_double_underscore_app_l in ND.
  - destruct t; [exact I | exact HD].
  - rewrite E in PR. now apply Forall_app in PR as [PR _].
Qed.

(** A second application only strips an underscore from the end. *)
Lemma sanitize_stem_twice (s : str) :
  sanitize_stem (sanitize_stem s 80) 80
  = rstrip_by is_underscore (sanitize_stem s 80).
Proof.
  destruct (sanitize_stem_shape s) as (NE & LE & A & ND & HD & _).
  set (r := sanitize_stem s 80) in *.
  unfold sanitize_stem at 1. unfold clean_stem.
  assert (S1 : strip r = r).
  { destruct r as [|c r']; [congruence|].
    apply strip_by_fixed with 0.
    - inversion A; subst. now apply safe_not_space.
    - apply safe_not_space. rewrite Forall_forall in A. apply A.
      apply (@exists_last _ (c :: r')) in NE as (l' & a & E).
      rewrite E, last_last. apply in_or_app. right. now left. }
  rewrite S1.
  unfold sub_runs. rewrite (sub_runs_from_fixed unsafe_char false r A).
  rewrite (collapse_fixed false r ND).
  unfold strip_by. rewrite (lstrip_by_fixed is_underscore r HD).
  destruct r as [|c r']; [congruence|].
  destruct (rstrip_by_keeps_head is_underscore c r' HD) as [q E].
  rewrite E. rewrite slice_to_80_split.
  apply firstn_all2.
  destruct (rstrip_by_split is_underscore (c :: r')) as [suf [E' _]].
  rewrite E in E'. rewrite E' in LE. rewrite length_app in LE. lia.
Qed.

End Sanitizer.

(** The letter e with an acute accent is a word character of [re]. *)
Lemma sanitize_stem_e_acute {db : UnicodeDB} : sanitize_stem [233] 80 = [233].
Proof. reflexivity. Qed.

(** C5, as the code has it: [sanitize_stem] with [max_len = 80] returns
    for every [str] a non-empty [str] of at most 80 characters, each of
    them a word character of [re] (a letter or digit of any script, or an
    underscore), a hyphen or a dot; when the input holds ASCII only, each
    is in [[A-Za-z0-9_.-]]. *)
Theorem sanitize_stem_total {db : UnicodeDB} (s : str) :
  let r := sanitize_stem s 80 in
  r <> []
  /\ (List.length r <= 80)%nat
  /\ Forall (fun c => is_word c = true \/ c = 45 \/ c = 46) r
  /\ (Forall (fun c => c < 128) s -> Forall (fun c => ascii_safe c = true) r).
Proof.
  destruct (sanitize_stem_shape s) as (NE & LE & A & _ & _ & PR).
  cbv zeta. repeat split; try assumption.
  - eapply Forall_impl; [|exact A]. simpl. unfold unsafe_char. intros c H.
    apply negb_false_iff in H. b2p. tauto.
  - intros AS. rewrite Forall_forall in *. intros c Hc.
    apply safe_ascii; [|now apply A].
    destruct (PR c Hc) as [I1|[->|I2]]; [now apply AS | reflexivity |].
    simpl in I2. lia.
Qed.

(** C5, as the claim words it, fails: the one-letter name U+00E9 is
    returned as it is, and U+00E9 is not in [[A-Za-z0-9_.-]]. *)
Lemma sanitize_stem_not_ascii :
  sanitize_stem (db := latin1_db) [233] 80 = [233]
  /\ ascii_safe 233 = false.
Proof. split; reflexivity. Qed.

(** C6, as the code has it: a second application of [sanitize_stem] strips
    an underscore from the end of the first result and does nothing else;
    so the two results are equal exactly when the first does not end in an
    underscore, which holds whenever the name was not cut by the slice. *)
Theorem sanitize_stem_twice_spec {db : UnicodeDB} (s : str) :
  let r := sanitize_stem s 80 in
  sanitize_stem r 80 = rstrip_by is_underscore r
  /\ (sanitize_stem r 80 = r <-> last r 0 <> 95)
  /\ ((List.length (clean_stem s) <= 80)%nat -> sanitize_stem r 80 = r).
Proof.
  cbv zeta. pose proof (sanitize_stem_twice s) as T.
  destruct (sanitize_stem_shape s) as (NE & _).
  assert (IFF : sanitize_stem (sanitize_stem s 80) 80 = sanitize_stem s 80
                <-> last (sanitize_stem s 80) 0 <> 95).
  { rewrite T. split.
    - intros E. pose proof (rstrip_by_last is_underscore (sanitize_stem s 80) 0) as L.
      rewrite E in L. specialize (L NE). unfold is_underscore in L.
      now apply N.eqb_neq in L.
    - intros L. apply rstrip_by_fixed with 0; [exact NE|].
      unfold is_underscore. now apply N.eqb_neq. }
  split; [exact T|]. split; [exact IFF|].
  intros LE. apply IFF.
  destruct (clean_stem_shape s) as (_ & _ & _ & _ & L & _).
  unfold sanitize_stem at 1. rewrite slice_to_80_split, firstn_all2 by exact LE.
  unfold is_underscore in L. now apply N.eqb_neq in L.
Qed.

(** C6, as the claim words it, fails: a name of 79 letters, an underscore
    and one more letter is cut after the underscore, and the second
    application strips that underscore. *)
Lemma sanitize_stem_not_idempotent :
  let s := repeat 97 79 ++ u "_b" in
  sanitize_stem (db := latin1_db) s 80 = repeat 97 79 ++ u "_"
  /\ sanitize_stem (db := latin1_db) (sanitize_stem (db := latin1_db) s 80) 80
     = repeat 97 79.
Proof. split; vm_compute; reflexivity. Qed.

(** ** The phrase file *)

Section Phrases.
Context {db : UnicodeDB}.

Lemma load_phrases_loop_spec (lines acc : list str) :
  load_phrases_loop acc lines = acc ++ filter is_usable (map strip lines).
Proof.
  revert acc. induction lines as [|line rest IH]; intros acc.
  - simpl. now rewrite app_nil_r.
  - cbn [load_phrases_loop map filter].
    destruct (strip line) as [|c t] eqn:S.
    + change (is_usable []) with false. apply IH.
    + unfold is_usable. change (str_eqb (c :: t) []) with false.
      cbn [negb andb].
      destruct (startswith (u "#") (c :: t)); cbn [negb].
      * apply IH.
      * rewrite IH. now rewrite <- app_assoc.
Qed.

(** A line whose first character after white space is [#] is no phrase. *)
Lemma indented_comment_unusable (ws rest : str) :
  Forall (fun c => isspace c = true) ws ->
  is_usable (strip (ws ++ 35 :: rest)) = false.
Proof.
  intros F. unfold strip, strip_by.
  assert (E : lstrip_by isspace (ws ++ 35 :: rest) = 35 :: rest).
  { induction F as [|c t C F IH]; [reflexivity|]. simpl. now rewrite C. }
  rewrite E.
  destruct (rstrip_by_keeps_head isspace 35 rest eq_refl) as [r E'].
  replace (rstrip_by isspace (35 :: rest)) with (35 :: r) by (symmetry; exact E').
  reflexivity.
Qed.

End Phrases.

(** What is loaded from a file that is read. *)
Lemma usable_loaded (p : path) (text : str) :
  load_phrases p (Text text)
  = Ok (usable_phrases text,
        match usable_phrases text with
        | [] => [WarnNoUsablePhrases]
        | _ => []
        end).
Proof.
  unfold load_phrases, usable_phrases. rewrite load_phrases_loop_spec. simpl.
  now destruct (filter is_usable (map strip (splitlines text))).
Qed.

(** C10: [load_phrases] returns the trimmed lines that are neither empty
    nor comments, in file order and with repetitions, and warns when
    there is none; a line whose [#] comes after white space is left out;
    a missing file gives the empty list and one printed line. *)
Theorem load_phrases_spec (p : path) (text : str) :
  load_phrases p (Text text)
  = Ok (usable_phrases text,
        match usable_phrases text with
        | [] => [WarnNoUsablePhrases]
        | _ => []
        end)
  /\ (forall ws rest, Forall (fun c => isspace c = true) ws ->
        is_usable (strip (ws ++ 35 :: rest)) = false)
  /\ load_phrases p (Text (u "one" ++ [10] ++ u "  # two" ++ [10]
                           ++ u " one " ++ [10; 10] ++ u "#x" ++ [10]
                           ++ u "three"))
     = Ok ([u "one"; u "one"; u "three"], [])
  /\ load_phrases p NoFile = Ok ([], [ErrPhraseFileNotFound p]).
Proof.
  repeat split.
  - unfold load_phrases, usable_phrases.
    rewrite load_phrases_loop_spec. simpl.
    now destruct (filter is_usable (map strip (splitlines text))).
  - apply indented_comment_unusable.
Qed.

(** ** The order of paths and the font enumerator *)

Section LexOrder.
Context {A : Type} (leb : A -> A -> bool).
Hypothesis leb_total : forall x y, leb x y = true \/ leb y x = true.
Hypothesis leb_trans : forall x y z, leb x y = true -> leb y z = true -> leb x z = true.
Hypothesis leb_antisym : forall x y, leb x y = true -> leb y x = true -> x = y.

Lemma lex_leb_total (a b : list A) :
  lex_leb leb a b = true \/ lex_leb leb b a = true.
Proof.
  revert b. induction a as [|x a IH]; intros [|y b]; simpl; auto.
  destruct (leb x y) eqn:XY, (leb y x) eqn:YX; auto.
  destruct (leb_total x y); congruence.
Qed.

Lemma lex_leb_antisym (a b : list A) :
  lex_leb leb a b = true -> lex_leb leb b a = true -> a = b.
Proof.
  revert b. induction a as [|x a IH]; intros [|y b]; simpl; try congruence.
  destruct (leb x y) eqn:XY, (leb y x) eqn:YX; try congruence.
  intros H1 H2. f_equal; auto.
Qed.

Lemma lex_leb_trans (a b c : list A) :
  lex_leb leb a b = true -> lex_leb leb b c = true -> lex_leb leb a c = true.
Proof.
  revert b c. induction a as [|x a IH]; intros [|y b] [|z c]; simpl; try congruence.
  destruct (leb x y) eqn:XY; [|congruence].
  destruct (leb y z) eqn:YZ; [|destruct (leb y x); congruence].
  rewrite (leb_trans x y z XY YZ).
  destruct (leb y x) eqn:YX, (leb z y) eqn:ZY, (leb z x) eqn:ZX;
    intros H1 H2; try reflexivity; try (eapply IH; eassumption);
    first [ rewrite (leb_trans z x y ZX XY) in ZY; discriminate
          | rewrite (leb_trans y z x YZ ZX) in YX; discriminate ].
Qed.

End LexOrder.

Lemma str_leb_total (a b : str) : str_leb a b = true \/ str_leb b a = true.
Proof. apply lex_leb_total. intros x y. rewrite !N.leb_le. lia. Qed.

Lemma str_leb_trans (a b c : str) :
  str_leb a b = true -> str_leb b c = true -> str_leb a c = true.
Proof. apply lex_leb_trans. intros x y z. rewrite !N.leb_le. lia. Qed.

Lemma str_leb_antisym (a b : str) :
  str_leb a b = true -> str_leb b a = true -> a = b.
Proof. apply lex_leb_antisym. intros x y. rewrite !N.leb_le. lia. Qed.

Lemma path_leb_total (p q : path) : path_leb p q = true \/ path_leb q p = true.
Proof. apply lex_leb_total, str_leb_total. Qed.

Lemma path_leb_trans (p q r : path) :
  path_leb p q = true -> path_leb q r = true -> path_leb p r = true.
Proof. apply lex_leb_trans, str_leb_trans. Qed.

Lemma path_leb_antisym (p q : path) :
  path_leb p q = true -> path_leb q p = true -> p = q.
Proof. apply lex_leb_antisym, str_leb_antisym. Qed.

Lemma insert_sorted_perm (p : path) (l : list path) :
  Permutation (p :: l) (insert_sorted p l).
Proof.
  induction l as [|q t IH]; simpl; [reflexivity|].
  destruct (path_leb p q); [reflexivity|].
  rewrite perm_swap. now constructor.
Qed.

Lemma sorted_perm (l : list path) : Permutation l (sorted l).
Proof.
  induction l as [|p t IH]; simpl; [reflexivity|].
  rewrite <- insert_sorted_perm. now constructor.
Qed.

Lemma insert_sorted_sorted (p : path) (l : list path) :
  StronglySorted path_le l -> StronglySorted path_le (insert_sorted p l).
Proof.
  induction 1 as [|q t S IH F]; simpl.
  - repeat constructor.
  - destruct (path_leb p q) eqn:PQ.
    + constructor; [now constructor|].
      constructor; [exact PQ|].
      eapply Forall_impl; [|exact F]. intros r. now apply path_leb_trans.
    + constructor; [exact IH|].
      assert (QP : path_le q p) by (destruct (path_leb_total p q); congruence).
      rewrite <- (insert_sorted_perm p t). now constructor.
Qed.

Lemma sorted_sorted (l : list path) : StronglySorted path_le (sorted l).
Proof.
  induction l as [|p t IH]; simpl; [constructor | now apply insert_sorted_sorted].
Qed.

(** Two sorted lists with the same elements are the same list. *)
Lemma sorted_unique (l1 l2 : list path) :
  StronglySorted path_le l1 -> StronglySorted path_le l2 ->
  Permutation l1 l2 -> l1 = l2.
Proof.
  intros S1. revert l2. induction S1 as [|a l1 S1 IH F1]; intros l2 S2 P.
  - now apply Permutation_nil in P.
  - destruct S2 as [|b l2 S2 F2].
    + apply Permutation_sym, Permutation_nil in P. discriminate.
    + assert (a = b) as <-.
      { assert (Ia : In a (b :: l2)) by (eapply Permutation_in; [exact P | now left]).
        assert (Ib : In b (a :: l1))
          by (eapply Permutation_in; [apply Permutation_sym; exact P | now left]).
        rewrite Forall_forall in F1, F2.
        destruct Ia as [->|Ia]; [reflexivity|].
        destruct Ib as [->|Ib]; [reflexivity|].
        apply path_leb_antisym; [now apply F1 | now apply F2]. }
      f_equal. apply IH; [exact S2|]. now apply Permutation_cons_inv in P.
Qed.

Lemma sorted_order_free (l1 l2 : list path) :
  Permutation l1 l2 -> sorted l1 = sorted l2.
Proof.
  intros P. apply sorted_unique; try apply sorted_sorted.
  now rewrite <- !sorted_perm.
Qed.

Lemma filter_sorted (f : path -> bool) (l : list path) :
  StronglySorted path_le l -> StronglySorted path_le (filter f l).
Proof.
  induction 1 as [|p t S IH F]; simpl; [constructor|].
  destruct (f p); [|exact IH].
  constructor; [exact IH|].
  rewrite Forall_forall in *. intros q Hq. apply F.
  now apply filter_In in Hq as [Hq _].
Qed.

Section Fonts.
Context {db : UnicodeDB}.
Variable is_file : path -> bool.

Lemma yielded_loop (l : list path) :
  yielded (iter_ttf_fonts_loop is_file l)
  = filter (fun p => is_file p && is_ttf p) l.
Proof.
  induction l as [|p t IH]; simpl; [reflexivity|].
  destruct (is_file p), (is_ttf p); simpl; now rewrite IH.
Qed.

Lemma skipped_loop (l : list path) :
  skipped (iter_ttf_fonts_loop is_file l)
  = filter (fun p => is_file p && negb (is_ttf p)) l.
Proof.
  induction l as [|p t IH]; simpl; [reflexivity|].
  destruct (is_file p), (is_ttf p); simpl; now rewrite IH.
Qed.

Lemma is_ttf_iff (p : path) : is_ttf p = true <-> lower (suffix p) = u ".ttf".
Proof.
  unfold is_ttf, str_eqb.
  destruct (list_eq_dec N.eq_dec (lower (suffix p)) (u ".ttf")); split; congruence.
Qed.

End Fonts.

(** C9: [iter_ttf_fonts] yields the regular files of the tree whose suffix
    is [.ttf] up to case, each as often as the walk lists it and in the
    order of paths; the result does not depend on the order of the walk;
    the other regular files are warned about and skipped. *)
Theorem iter_ttf_fonts_spec {db : UnicodeDB} (tree : list path) (is_file : path -> bool) :
  let evs := iter_ttf_fonts tree is_file in
  (forall p, In p (yielded evs)
             <-> In p tree /\ is_file p = true /\ lower (suffix p) = u ".ttf")
  /\ Permutation (yielded evs) (filter (fun p => is_file p && is_ttf p) tree)
  /\ StronglySorted path_le (yielded evs)
  /\ (forall tree', Permutation tree tree' -> iter_ttf_fonts tree' is_file = evs)
  /\ (forall p, In p (skipped evs)
                <-> In p tree /\ is_file p = true /\ lower (suffix p) <> u ".ttf").
Proof.
  cbv zeta. unfold iter_ttf_fonts. rewrite yielded_loop, skipped_loop.
  repeat split.
  - apply filter_In in H as [H _]. eapply Permutation_in; [|exact H].
    apply Permutation_sym, sorted_perm.
  - apply filter_In in H as [_ H]. now apply andb_true_iff in H as [H _].
  - apply filter_In in H as [_ H]. apply andb_true_iff in H as [_ H].
    now apply is_ttf_iff.
  - intros (I & F & T). apply filter_In. split.
    + eapply Permutation_in; [apply sorted_perm | exact I].
    + apply andb_true_iff. split; [exact F | now apply is_ttf_iff].
  - clear. induction (sorted_perm tree); simpl; auto.
    + destruct (is_file x && is_ttf x); auto.
    + destruct (is_file x && is_ttf x), (is_file y && is_ttf y); auto. constructor.
    + eapply Permutation_trans; eassumption.
  - apply filter_sorted, sorted_sorted.
  - intros tree' P. now rewrite (sorted_order_free tree tree' P).
  - apply filter_In in H as [H _]. eapply Permutation_in; [|exact H].
    apply Permutation_sym, sorted_perm.
  - apply filter_In in H as [_ H]. now apply andb_true_iff in H as [H _].
  - apply filter_In in H as [_ H]. apply andb_true_iff in H as [_ H].
    apply negb_true_iff in H. intros T. apply is_ttf_iff in T. congruence.
  - intros (I & F & T). apply filter_In. split.
    + eapply Permutation_in; [apply sorted_perm | exact I].
    + apply andb_true_iff. split; [exact F|]. apply negb_true_iff.
      apply not_true_is_false. intros T'. now apply is_ttf_iff in T'.
Qed.

(** ** The download watcher *)

Section WatcherLemmas.
Context {db : UnicodeDB}.
Variable download_dir : path.
Variable before : path -> bool.
Variable deadline : Z.
Variable polls : nat -> Poll.

Local Open Scope Z_scope.

Lemma max_by_mtime_in (x : FileStat) (l : list FileStat) :
  In (max_by_mtime x l) (x :: l).
Proof.
  revert x. induction l as [|y t IH]; intros x; simpl; [now left|].
  destruct (f_mtime x <? f_mtime y).
  - right. apply IH.
  - destruct (IH x) as [E|I]; [now left | now right; right].
Qed.

Lemma next_tick_advances (k : nat) (t : Z) :
  t + 200 <= next_tick polls k t.
Proof. unfold next_tick. lia. Qed.

(** The bounded loop runs as the source's loop does, once the bound
    covers the turns that fit before the deadline. *)
Lemma poll_loop_runs (fuel : nat) :
  forall k t ls ss,
    (1 <= fuel)%nat ->
    deadline - t <= 200 * (Z.of_nat fuel - 1) ->
    poll_run download_dir before deadline polls k t ls ss
      (poll_loop download_dir before deadline polls fuel k t ls ss).
Proof.
  induction fuel as [|fuel IH]; intros k t ls ss F D; [lia|].
  cbn [poll_loop]. destruct (t <? deadline) eqn:T.
  - apply Z.ltb_lt in T.
    pose proof (next_tick_advances k t) as ADV.
    assert (REC : forall ls' ss',
               poll_run download_dir before deadline polls (S k) (next_tick polls k t) ls' ss'
                 (poll_loop download_dir before deadline polls fuel (S k)
                    (next_tick polls k t) ls' ss')).
    { intros. apply IH; lia. }
    destruct (new_files download_dir before polls k) as [|x rest] eqn:N.
    + apply run_nothing_new; auto.
    + destruct (existsb f_gone_mtime (x :: rest)) eqn:GM;
        [eapply run_mtime_raises; eauto|].
      destruct (f_gone_size (max_by_mtime x rest)) eqn:GS;
        [eapply run_size_raises; eauto|].
      destruct (size_differs ls (f_size (max_by_mtime x rest))) eqn:SD.
      * eapply run_size_changed; eauto.
      * destruct ss as [since|].
        -- destruct (1000 <=? t + Z.of_N (p_work (polls k)) - since) eqn:W.
           ++ apply Z.leb_le in W. eapply run_return; eauto.
           ++ apply Z.leb_gt in W. eapply run_wait; eauto.
        -- eapply run_wait; eauto.
  - apply Z.ltb_ge in T. now apply run_deadline.
Qed.

(** The source's loop has one result. *)
Lemma poll_run_functional k t ls ss r1 r2 :
  poll_run download_dir before deadline polls k t ls ss r1 ->
  poll_run download_dir before deadline polls k t ls ss r2 ->
  r1 = r2.
Proof.
  intros R1. revert r2.
  induction R1; intros r2 R2; inversion R2; subst;
    try lia; try congruence; auto;
    match goal with
    | A : new_files _ _ _ ?k = _, B : new_files _ _ _ ?k = _ |- _ =>
        rewrite A in B; inversion B; subst; clear B
    end; try congruence; try lia; auto.
Qed.

(** Whatever the bounded loop returns is an entry of some poll taken
    before the deadline: a regular file of the download directory that is
    not in the snapshot and not a partial download. *)
Lemma poll_loop_result (fuel : nat) :
  forall k t ls ss p,
    poll_loop download_dir before deadline polls fuel k t ls ss = Ok p ->
    exists k' f,
      (k <= k')%nat
      /\ In f (p_listing (polls k'))
      /\ p = child download_dir (f_name f)
      /\ f_is_file f = true
      /\ before p = false
      /\ is_partial p = false.
Proof.
  induction fuel as [|fuel IH]; intros k t ls ss p; cbn [poll_loop]; [discriminate|].
  assert (REC : forall t' ls' ss',
             poll_loop download_dir before deadline polls fuel (S k) t' ls' ss' = Ok p ->
             exists k' f, (k <= k')%nat /\ In f (p_listing (polls k'))
               /\ p = child download_dir (f_name f) /\ f_is_file f = true
               /\ before p = false /\ is_partial p = false).
  { intros t' ls' ss' H. destruct (IH _ _ _ _ _ H) as (k' & f & L & R).
    exists k', f. split; [lia | exact R]. }
  destruct (t <? deadline); [|discriminate].
  destruct (new_files download_dir before polls k) as [|x rest] eqn:N; [apply REC|].
  destruct (existsb f_gone_mtime (x :: rest)); [discriminate|].
  destruct (f_gone_size (max_by_mtime x rest)); [discriminate|].
  destruct (size_differs ls (f_size (max_by_mtime x rest))); [apply REC|].
  destruct ss as [since|]; [|apply REC].
  destruct (1000 <=? t + Z.of_N (p_work (polls k)) - since); [|apply REC].
  intros E. inversion E; subst p; clear E.
  pose proof (max_by_mtime_in x rest) as M. rewrite <- N in M.
  unfold new_files, list_files in M.
  apply filter_In in M as [M C1]. apply filter_In in M as [M C2].
  apply filter_In in M as [M C3].
  apply andb_true_iff in C1 as [_ C1].
  apply negb_true_iff in C1, C2.
  exists k, (max_by_mtime x rest). repeat split; auto.
Qed.

(** The loop raises the timeout, or what [stat] raises on a new file
    that is gone, at a turn that starts before the deadline. *)
Lemma poll_loop_raises (fuel : nat) :
  forall k t ls ss e,
    poll_loop download_dir before deadline polls fuel k t ls ss = Raise e ->
    e = TimeoutError
    \/ (e = FileNotFoundError
        /\ exists k' f,
             (k <= k')%nat
             /\ In f (new_files download_dir before polls k')
             /\ (f_gone_mtime f = true \/ f_gone_size f = true)).
Proof.
  induction fuel as [|fuel IH]; intros k t ls ss e; cbn [poll_loop]; [left; congruence|].
  assert (REC : forall t' ls' ss',
             poll_loop download_dir before deadline polls fuel (S k) t' ls' ss' = Raise e ->
             e = TimeoutError
             \/ (e = FileNotFoundError
                 /\ exists k' f,
                      (k <= k')%nat
                      /\ In f (new_files download_dir before polls k')
                      /\ (f_gone_mtime f = true \/ f_gone_size f = true))).
  { intros t' ls' ss' H. destruct (IH _ _ _ _ _ H) as [E|(E & k' & f & L & R)];
      [now left|]. right. split; [exact E|]. exists k', f. split; [lia | exact R]. }
  destruct (t <? deadline); [|left; congruence].
  destruct (new_files download_dir before polls k) as [|x rest] eqn:N; [apply REC|].
  destruct (existsb f_gone_mtime (x :: rest)) eqn:GM.
  { intros H. right. split; [congruence|].
    apply existsb_exists in GM as (f & I & G).
    exists k, f. rewrite N. auto. }
  destruct (f_gone_size (max_by_mtime x rest)) eqn:GS.
  { intros H. right. split; [congruence|].
    exists k, (max_by_mtime x rest). rewrite N.
    split; [lia|]. split; [apply max_by_mtime_in | now right]. }
  destruct (size_differs _ _); [apply REC|].
  destruct ss; [|apply REC].
  destruct (1000 <=? _); [discriminate | apply REC].
Qed.

End WatcherLemmas.

(** [wait_for_new_download] never hangs: the loop of the source ends, with
    the result that the model computes and no other. *)
Lemma wait_for_new_download_ends {db : UnicodeDB}
    (dir : path) (before : path -> bool) (timeout_s t0 : Z) (polls : nat -> Poll) :
  poll_run dir before (t0 + 1000 * timeout_s)%Z polls O t0 None None
    (wait_for_new_download dir before timeout_s t0 polls)
  /\ forall r, poll_run dir before (t0 + 1000 * timeout_s)%Z polls O t0 None None r ->
               r = wait_for_new_download dir before timeout_s t0 polls.
Proof.
  assert (R : poll_run dir before (t0 + 1000 * timeout_s)%Z polls O t0 None None
                (wait_for_new_download dir before timeout_s t0 polls)).
  { apply poll_loop_runs; lia. }
  split; [exact R|]. intros r R'. eapply poll_run_functional; eassumption.
Qed.

(** What it returns is new, regular and not partial; it raises the
    timeout, or what [stat] raises on a new file that is gone. *)
Lemma wait_for_new_download_result {db : UnicodeDB}
    (dir : path) (before : path -> bool) (timeout_s t0 : Z) (polls : nat -> Poll) :
  match wait_for_new_download dir before timeout_s t0 polls with
  | Ok p =>
      exists k f, In f (p_listing (polls k))
        /\ p = child dir (f_name f)
        /\ f_is_file f = true
        /\ before p = false
        /\ is_partial p = false
  | Raise e =>
      e = TimeoutError
      \/ (e = FileNotFoundError
          /\ exists k f, In f (new_files dir before polls k)
               /\ (f_gone_mtime f = true \/ f_gone_size f = true))
  end.
Proof.
  unfold wait_for_new_download.
  destruct (poll_loop _ _ _ _ _ _ _ _ _) as [p|e] eqn:E.
  - destruct (poll_loop_result _ _ _ _ _ _ _ _ _ _ E) as (k & f & _ & R).
    now exists k, f.
  - destruct (poll_loop_raises _ _ _ _ _ _ _ _ _ _ E) as [T|(F & k & f & _ & R)];
      [now left|]. right. split; [exact F|]. now exists k, f.
Qed.

(** C1 (the code departs from it): on [overtaken_polls] the watcher
    returns [b.stl] at the sixth poll, one second after it was entered:
    the size that stayed the same for the second is that of [a.stl] at the
    first five polls, while [b.stl] is seen at the sixth poll for the first
    time and changes size at every poll after. *)
Theorem watcher_returns_file_first_seen :
  wait_for_new_download (db := latin1_db) [u "tmp"] (fun _ => false) 180 0
    overtaken_polls = Ok [u "tmp"; u "b.stl"]
  /\ (forall k size, (k < 5)%nat ->
        ~ seen_with_size (overtaken_polls k) (u "b.stl") size)
  /\ (forall k, (5 <= k)%nat ->
        seen_with_size (overtaken_polls k) (u "b.stl") (Z.of_nat k)).
Proof.
  split; [vm_compute; reflexivity|]. split.
  - intros k size L (f & I & N & _). unfold overtaken_polls in I.
    apply Nat.ltb_lt in L. rewrite L in I. simpl in I.
    destruct I as [<-|[]]. vm_compute in N. discriminate.
  - intros k L. unfold overtaken_polls.
    apply Nat.ltb_ge in L. rewrite L.
    eexists. split; [right; left; reflexivity|]. split; reflexivity.
Qed.

(** C3 (the code departs from it): on [overtaken_polls], whose polls are
    200 ms apart, no file has the same size at two polls that are a second
    or more apart, so none keeps its size for the window of quiescence;
    yet the watcher returns [b.stl] and raises no timeout. *)
Theorem watcher_returns_without_stable_file :
  wait_for_new_download (db := latin1_db) [u "tmp"] (fun _ => false) 180 0
    overtaken_polls = Ok [u "tmp"; u "b.stl"]
  /\ forall nm size k1 k2, (k1 + 5 <= k2)%nat ->
       ~ (seen_with_size (overtaken_polls k1) nm size
          /\ seen_with_size (overtaken_polls k2) nm size).
Proof.
  split; [vm_compute; reflexivity|].
  intros nm size k1 k2 L [H1 H2].
  assert (SEEN : forall k, (5 <= k)%nat -> seen_with_size (overtaken_polls k) nm size ->
            (nm = u "a.stl" /\ size = (6 + Z.of_nat k)%Z)
            \/ (nm = u "b.stl" /\ size = Z.of_nat k)).
  { intros k K (f & I & N & S). unfold overtaken_polls in I.
    apply Nat.ltb_ge in K. rewrite K in I. simpl in I.
    destruct I as [<-|[<-|[]]]; [left | right]; split; auto. }
  assert (AB : u "a.stl" <> u "b.stl") by (vm_compute; discriminate).
  destruct (Nat.ltb k1 5) eqn:K1.
  - destruct H1 as (f & I & N & S).
    unfold overtaken_polls in I. rewrite K1 in I.
    simpl in I. destruct I as [<-|[]]. simpl in N, S.
    destruct (SEEN k2 ltac:(lia) H2) as [[_ S2]|[N2 _]].
    + lia.
    + apply AB. congruence.
  - apply Nat.ltb_ge in K1.
    destruct (SEEN k1 K1 H1) as [[N1 S1]|[N1 S1]];
      destruct (SEEN k2 ltac:(lia) H2) as [[N2 S2]|[N2 S2]];
      try lia; apply AB; congruence.
Qed.

(** ** The relocator *)

Lemma path_eqb_eq (p q : path) : path_eqb p q = true <-> p = q.
Proof.
  unfold path_eqb.
  destruct (list_eq_dec (list_eq_dec N.eq_dec) p q); split; congruence.
Qed.

Lemma path_eqb_refl (p : path) : path_eqb p p = true.
Proof. now apply path_eqb_eq. Qed.

Lemma path_eqb_neq (p q : path) : path_eqb p q = false <-> p <> q.
Proof.
  rewrite <- path_eqb_eq. destruct (path_eqb p q); split; congruence.
Qed.

Lemma fs_move_dst (fs : FS) (src dst : path) : fs_move fs src dst dst = true.
Proof. unfold fs_move. now rewrite path_eqb_refl. Qed.

Lemma fs_move_other (fs : FS) (src dst q : path) :
  q <> src -> fs q = true -> fs_move fs src dst q = true.
Proof.
  intros NS Q. unfold fs_move. destruct (path_eqb q dst); [reflexivity|].
  apply path_eqb_neq in NS. now rewrite NS.
Qed.

Lemma fs_move_from (fs : FS) (src dst q : path) :
  fs_move fs src dst q = true -> q = dst \/ fs q = true.
Proof.
  unfold fs_move. destruct (path_eqb q dst) eqn:D.
  - left. now apply path_eqb_eq.
  - destruct (path_eqb q src); [discriminate | now right].
Qed.

(** The loop of [safe_move] finds the first free number, if there is one. *)
Lemma first_free_some (fs : FS) (dst : path) (n : nat) :
  forall i k,
    (i <= k < i + n)%nat ->
    (forall m, (i <= m < k)%nat -> fs (numbered dst m) = true) ->
    fs (numbered dst k) = false ->
    first_free fs dst i n = Some (numbered dst k).
Proof.
  induction n as [|n IH]; intros i k R B F; [lia|].
  simpl. destruct (Nat.eq_dec i k) as [->|NE].
  - now rewrite F.
  - rewrite (B i) by lia. apply IH; [lia | | exact F].
    intros m M. apply B. lia.
Qed.

Lemma first_free_none (fs : FS) (dst : path) (n : nat) :
  forall i,
    (forall m, (i <= m < i + n)%nat -> fs (numbered dst m) = true) ->
    first_free fs dst i n = None.
Proof.
  induction n as [|n IH]; intros i B; [reflexivity|].
  simpl. rewrite (B i) by lia. apply IH. intros m M. apply B. lia.
Qed.

Lemma first_free_found (fs : FS) (dst : path) (n : nat) :
  forall i c,
    first_free fs dst i n = Some c ->
    exists k, (i <= k < i + n)%nat /\ c = numbered dst k /\ fs c = false
              /\ forall m, (i <= m < k)%nat -> fs (numbered dst m) = true.
Proof.
  induction n as [|n IH]; intros i c; simpl; [discriminate|].
  destruct (fs (numbered dst i)) eqn:F.
  - intros H. destruct (IH _ _ H) as (k & R & E & Fc & B).
    exists k. repeat split; auto; try lia.
    intros m M. destruct (Nat.eq_dec m i) as [->|]; [exact F | apply B; lia].
  - intros H. inversion H; subst c. exists i. repeat split; auto; lia.
Qed.

(** What [safe_move] returns did not exist, and is the destination or one
    of its numbered variants; nothing that existed is lost but the source. *)
Lemma safe_move_fresh (fs fs' : FS) (src dst p : path) :
  safe_move fs src dst = Ok (p, fs') ->
  fs p = false
  /\ fs' = fs_move fs src p
  /\ (p = dst \/ exists k, (1 <= k <= 9999)%nat /\ p = numbered dst k).
Proof.
  unfold safe_move. destruct (fs dst) eqn:D; cbn [negb].
  - destruct (first_free fs dst 1 9999) as [c|] eqn:FF; [|discriminate].
    intros H. inversion H; subst. clear H.
    destruct (first_free_found _ _ _ _ _ FF) as (k & R & E & Fc & _).
    repeat split; auto. right. exists k. split; [lia | exact E].
  - intros H. inversion H; subst. auto.
Qed.

(** C4: [safe_move] moves the source to the destination when that does
    not exist; otherwise to the first of the names numbered [_01], [_02],
    up to [_9999] that does not exist, and raises an error when all of
    them exist. No file that exists is written over: the path returned did
    not exist, and every other file but the source is still there. With
    [out/a.stl] taken the result is [out/a_01.stl]; with that taken as
    well it is [out/a_02.stl]. *)
Theorem safe_move_spec (fs : FS) (src dst : path) :
  (fs dst = false -> safe_move fs src dst = Ok (dst, fs_move fs src dst))
  /\ (forall k, fs dst = true -> (1 <= k <= 9999)%nat ->
        (forall m, (1 <= m < k)%nat -> fs (numbered dst m) = true) ->
        fs (numbered dst k) = false ->
        safe_move fs src dst = Ok (numbered dst k, fs_move fs src (numbered dst k)))
  /\ (fs dst = true ->
      (forall m, (1 <= m <= 9999)%nat -> fs (numbered dst m) = true) ->
      safe_move fs src dst = Raise RuntimeError)
  /\ (forall p fs', safe_move fs src dst = Ok (p, fs') ->
        fs p = false /\ fs' p = true
        /\ forall q, q <> src -> fs q = true -> fs' q = true)
  /\ (forall i, numbered dst i
                = with_name dst (stem dst ++ u "_" ++ fmt_02d i ++ suffix dst))
  /\ (fmt_02d 1 = u "01" /\ fmt_02d 2 = u "02" /\ fmt_02d 10 = u "10"
      /\ fmt_02d 100 = u "100" /\ fmt_02d 9999 = u "9999")
  /\ (let a := [u "out"; u "a.stl"] in
      let taken := fun p => path_eqb p a in
      let taken2 := fun p => path_eqb p a || path_eqb p [u "out"; u "a_01.stl"] in
      (exists fs1, safe_move taken [u "tmp"; u "text.stl"] a
                   = Ok ([u "out"; u "a_01.stl"], fs1))
      /\ (exists fs2, safe_move taken2 [u "tmp"; u "text.stl"] a
                      = Ok ([u "out"; u "a_02.stl"], fs2))
      /\ safe_move (fun _ => true) [u "tmp"; u "text.stl"] a = Raise RuntimeError).
Proof.
  split; [|split; [|split; [|split; [|split; [|split]]]]].
  - intros D. unfold safe_move. now rewrite D.
  - intros k D R B F. unfold safe_move. rewrite D. cbn [negb].
    rewrite (first_free_some fs dst 9999 1 k); auto. lia.
  - intros D B. unfold safe_move. rewrite D. cbn [negb].
    rewrite first_free_none; auto. intros m M. apply B. lia.
  - intros p fs' H. destruct (safe_move_fresh _ _ _ _ _ H) as (F & -> & _).
    split; [exact F|]. split; [apply fs_move_dst|].
    intros q NS Q. now apply fs_move_other.
  - reflexivity.
  - repeat split; reflexivity.
  - cbv zeta. split; [|split].
    + eexists. vm_compute. reflexivity.
    + eexists. vm_compute. reflexivity.
    + unfold safe_move. cbn [negb]. now rewrite first_free_none.
Qed.

(** ** The batch loop *)

Lemma parent_child (d : path) (n : str) : parent (child d n) = d.
Proof. apply removelast_last. Qed.

Lemma name_child (d : path) (n : str) : name (child d n) = n.
Proof. apply last_last. Qed.

Lemma is_child_child (d : path) (n : str) : is_child d (child d n) = true.
Proof.
  unfold is_child. destruct (child d n) eqn:E.
  - unfold child in E. now destruct d.
  - rewrite <- E, parent_child. apply path_eqb_refl.
Qed.

Lemma numbered_child (d : path) (n : str) (k : nat) :
  child d (name (numbered (child d n) k)) = numbered (child d n) k.
Proof. unfold numbered, with_name. now rewrite parent_child, name_child. Qed.

Lemma artifacts_app (output : path) (l1 l2 : list LogLine) :
  artifacts output (l1 ++ l2) = artifacts output l1 ++ artifacts output l2.
Proof. apply flat_map_app. Qed.

Lemma pair_lines_app (l1 l2 : list LogLine) :
  pair_lines (l1 ++ l2) = pair_lines l1 ++ pair_lines l2.
Proof. apply flat_map_app. Qed.

Lemma extends_refl (output : path) (st : State) : extends output st st [].
Proof.
  unfold extends. simpl. rewrite app_nil_r.
  repeat split; auto; try constructor; try contradiction.
Qed.

Lemma extends_trans (output : path) (st1 st2 st3 : State) (l1 l2 : list LogLine) :
  extends output st1 st2 l1 -> extends output st2 st3 l2 ->
  extends output st1 st3 (l1 ++ l2).
Proof.
  intros (L1 & K1 & G1 & N1 & A1) (L2 & K2 & G2 & N2 & A2).
  unfold extends. rewrite artifacts_app. repeat split.
  - now rewrite L2, L1, app_assoc.
  - auto.
  - intros q Q. rewrite in_app_iff.
    destruct (G2 q Q) as [Q2|I2]; [|tauto].
    destruct (G1 q Q2); tauto.
  - apply NoDup_app; auto. intros a I1 I2.
    destruct (A1 a I1) as [_ T]. destruct (A2 a I2) as [F _]. congruence.
  - apply in_app_or in H as [I|I].
    + now destruct (A1 a I).
    + destruct (A2 a I) as [F _]. apply not_true_is_false. intros T.
      apply K1 in T. congruence.
  - apply in_app_or in H as [I|I].
    + destruct (A1 a I) as [_ T]. auto.
    + now destruct (A2 a I).
Qed.

Lemma extends_print (output : path) (st : State) (l : LogLine) :
  artifacts output [l] = [] -> extends output st (print st l) [l].
Proof.
  intros E. unfold extends. rewrite E. simpl.
  repeat split; auto; try constructor; try contradiction.
Qed.

Section BatchLemmas.
Context {db : UnicodeDB}.
Variable args : Args.
Variable w : World.

Let output := a_output args.

(** A pair that succeeds has passed every step, and its download was no
    file that the run knew of. *)
Lemma process_pair_ok (font : path) (i j : nat) (phrase : str) (fs fs' : FS) (p : path) :
  process_pair args w font i j phrase fs = Ok (p, fs') ->
  w_set_phrase w i j = Ok tt
  /\ w_click_download w i j = Ok tt
  /\ exists downloaded,
       fs downloaded = false
       /\ safe_move fs downloaded (child output (out_name font phrase)) = Ok (p, fs').
Proof.
  unfold process_pair, bind.
  destruct (w_set_phrase w i j) as [[]|]; [|discriminate].
  destruct (w_click_download w i j) as [[]|]; [|discriminate].
  pose proof (wait_for_new_download_result (a_tmp args) (snapshot args w fs i j)
                (a_download_timeout args) (w_clock w i j) (w_polls w i j)) as R.
  destruct (wait_for_new_download _ _ _ _ _) as [d|]; [|discriminate].
  destruct R as (k & f & _ & E & _ & B & _).
  intros H. repeat split; auto. exists d. split; [|exact H].
  unfold snapshot in B. apply orb_false_iff in B as [B _].
  rewrite E, is_child_child in B. rewrite E. exact B.
Qed.

Lemma process_pair_set_phrase_raises (font : path) (i j : nat) (phrase : str) (fs : FS) (e : exn) :
  w_set_phrase w i j = Raise e ->
  process_pair args w font i j phrase fs = Raise e.
Proof. intros H. unfold process_pair, bind. now rewrite H. Qed.

Lemma process_pair_click_raises (font : path) (i j : nat) (phrase : str) (fs : FS) (e : exn) :
  w_set_phrase w i j = Ok tt ->
  w_click_download w i j = Raise e ->
  process_pair args w font i j phrase fs = Raise e.
Proof. intros S C. unfold process_pair, bind. now rewrite S, C. Qed.

Lemma try_pair_extends (font : path) (i j : nat) (phrase : str) (st : State) :
  exists l,
    extends output st (try_pair args w font i j phrase st) [l]
    /\ line_of_pair args w font i j phrase l.
Proof.
  unfold try_pair.
  destruct (process_pair args w font i j phrase (st_fs st)) as [[p fs']|e] eqn:P.
  - destruct (process_pair_ok _ _ _ _ _ _ _ P) as (SP & CD & d & D & M).
    destruct (safe_move_fresh _ _ _ _ _ M) as (F & -> & V).
    assert (A : child output (name p) = p).
    { destruct V as [->|(k & _ & ->)]; [now rewrite name_child | apply numbered_child]. }
    assert (AR : artifacts output [OkLine i j (name font) phrase (name p)] = [p]).
    { unfold artifacts. cbn [flat_map app]. now rewrite A. }
    exists (OkLine i j (name font) phrase (name p)). split.
    + unfold extends. rewrite AR. cbn [st_fs st_log]. repeat split.
      * intros q Q. apply fs_move_other; [congruence | exact Q].
      * intros q Q. apply fs_move_from in Q. destruct Q as [->|Q]; [right; now left | now left].
      * repeat constructor. simpl. tauto.
      * destruct H as [<-|[]]. exact F.
      * destruct H as [<-|[]]. apply fs_move_dst.
    + cbn [line_of_pair]. repeat split; auto.
      destruct V as [->|(k & K & ->)].
      * left. now rewrite name_child.
      * right. now exists k.
  - eexists. split.
    + now apply extends_print.
    + simpl. repeat split; auto.
      * intros e' SP.
        rewrite (process_pair_set_phrase_raises _ _ _ _ _ _ SP) in P. congruence.
      * intros e' SP CD.
        rewrite (process_pair_click_raises _ _ _ _ _ _ SP CD) in P. congruence.
Qed.

Lemma phrase_loop_extends (font : path) (i : nat) (phrases : list str) :
  forall j st,
  exists ls,
    extends output st (phrase_loop args w font i j phrases st) ls
    /\ phrase_lines args w font i j phrases ls.
Proof.
  induction phrases as [|phrase rest IH]; intros j st; simpl.
  - exists []. split; [apply extends_refl | constructor].
  - destruct (try_pair_extends font i j phrase st) as (l & E1 & L).
    destruct (IH (S j) (try_pair args w font i j phrase st)) as (ls & E2 & PL).
    exists ([l] ++ ls). split.
    + eapply extends_trans; eassumption.
    + now constructor.
Qed.

Lemma font_loop_extends (phrases : list str) (evs : list FontEvent) :
  forall i st,
  exists ls,
    extends output st (font_loop args w phrases i evs st) ls
    /\ font_lines args w phrases i evs ls.
Proof.
  induction evs as [|[p|font] rest IH]; intros i st; simpl.
  - exists []. split; [apply extends_refl | constructor].
  - destruct (IH i (print st (WarnSkipNonTTF p))) as (ls & E & FL).
    exists ([WarnSkipNonTTF p] ++ ls). split.
    + eapply extends_trans; [now apply extends_print | exact E].
    + now constructor.
  - unfold try_font at 1. unfold try_font in IH.
    destruct (w_setup w i) as [[]|e] eqn:SU.
    + destruct (phrase_loop_extends font i phrases O st) as (block & E1 & PL).
      destruct (IH (S i) (phrase_loop args w font i O phrases st)) as (ls & E2 & FL).
      exists (block ++ ls). split.
      * eapply extends_trans; eassumption.
      * now constructor.
    + destruct (IH (S i) (print st (ErrFontLine i font e))) as (ls & E2 & FL).
      exists ([ErrFontLine i font e] ++ ls). split.
      * eapply extends_trans; [now apply extends_print | exact E2].
      * now constructor.
Qed.

End BatchLemmas.

Section LogLemmas.
Context {db : UnicodeDB}.
Variable args : Args.
Variable w : World.

Lemma line_of_pair_pair (font : path) (i j : nat) (phrase : str) (l : LogLine) :
  line_of_pair args w font i j phrase l -> pair_lines [l] = [(i, j)].
Proof.
  destruct l; simpl; try contradiction.
  - now intros (-> & -> & _).
  - now intros (-> & -> & _).
Qed.

Lemma phrase_lines_pairs (font : path) (i j : nat) (phrases : list str) (ls : list LogLine) :
  phrase_lines args w font i j phrases ls ->
  pair_lines ls = map (pair i) (seq j (List.length phrases)).
Proof.
  induction 1 as [|j phrase rest l ls L _ IH]; [reflexivity|].
  change (l :: ls) with ([l] ++ ls). rewrite pair_lines_app.
  rewrite (line_of_pair_pair _ _ _ _ _ L), IH. reflexivity.
Qed.

Lemma font_lines_pairs (phrases : list str) (i : nat) (evs : list FontEvent) (ls : list LogLine) :
  font_lines args w phrases i evs ls ->
  pair_lines ls = schedule w (List.length phrases) i (yielded evs).
Proof.
  induction 1 as [|i p evs ls _ IH|i font e evs ls SU _ IH|i font block evs ls SU PL _ IH].
  - reflexivity.
  - exact IH.
  - simpl. unfold setup_ok. rewrite SU. exact IH.
  - rewrite pair_lines_app. simpl. unfold setup_ok. rewrite SU.
    now rewrite (phrase_lines_pairs _ _ _ _ _ PL), IH.
Qed.

Lemma phrase_lines_sound (font : path) (i j : nat) (phrases : list str) (ls : list LogLine) :
  phrase_lines args w font i j phrases ls ->
  forall l, In l ls ->
    exists j' ph, (j <= j')%nat /\ nth_error phrases (j' - j) = Some ph
                  /\ line_of_pair args w font i j' ph l.
Proof.
  induction 1 as [|j phrase rest l0 ls L _ IH]; intros l I; [contradiction|].
  destruct I as [<-|I].
  - exists j, phrase. rewrite Nat.sub_diag. auto.
  - destruct (IH l I) as (j' & ph & LE & N & LP).
    exists j', ph. repeat split; [lia | | exact LP].
    replace (j' - j)%nat with (S (j' - S j)) by lia. exact N.
Qed.

Lemma phrase_lines_complete (font : path) (i j : nat) (phrases : list str) (ls : list LogLine) :
  phrase_lines args w font i j phrases ls ->
  forall k ph, nth_error phrases k = Some ph ->
    exists l, In l ls /\ line_of_pair args w font i (j + k) ph l.
Proof.
  induction 1 as [|j phrase rest l0 ls L _ IH]; intros k ph N.
  - now destruct k.
  - destruct k as [|k]; simpl in N.
    + inversion N; subst. exists l0. rewrite Nat.add_0_r. split; [now left | exact L].
    + destruct (IH k ph N) as (l & I & LP). exists l.
      replace (j + S k)%nat with (S j + k)%nat by lia. split; [now right | exact LP].
Qed.

Lemma line_sound_shift (phrases : list str) (i : nat) (font : path)
    (fonts skips : list path) (l : LogLine) :
  line_sound args w phrases (S i) fonts skips l ->
  line_sound args w phrases i (font :: fonts) skips l.
Proof.
  destruct l; simpl; auto.
  - intros (LE & f & N & R). split; [lia|]. exists f. split; [|exact R].
    replace (i0 - i)%nat with (S (i0 - S i)) by lia. exact N.
  - intros (LE & f & N & R). split; [lia|]. exists f. split; [|exact R].
    replace (i0 - i)%nat with (S (i0 - S i)) by lia. exact N.
  - intros (LE & N & R). split; [lia|]. split; [|exact R].
    replace (i0 - i)%nat with (S (i0 - S i)) by lia. exact N.
Qed.

Lemma line_sound_skips (phrases : list str) (i : nat) (fonts skips : list path)
    (p : path) (l : LogLine) :
  line_sound args w phrases i fonts skips l ->
  line_sound args w phrases i fonts (p :: skips) l.
Proof. destruct l; simpl; auto. Qed.

Lemma font_lines_sound (phrases : list str) (i : nat) (evs : list FontEvent) (ls : list LogLine) :
  font_lines args w phrases i evs ls ->
  forall l, In l ls -> line_sound args w phrases i (yielded evs) (skipped evs) l.
Proof.
  induction 1 as [|i p evs ls _ IH|i font e evs ls SU _ IH|i font block evs ls SU PL _ IH];
    intros l I.
  - contradiction.
  - destruct I as [<-|I].
    + simpl. now left.
    + apply (line_sound_skips phrases i (yielded evs) (skipped evs) p). now apply IH.
  - destruct I as [<-|I].
    + simpl. rewrite Nat.sub_diag. auto.
    + apply (line_sound_shift phrases i font (yielded evs) (skipped evs)). now apply IH.
  - apply in_app_or in I as [I|I].
    + destruct (phrase_lines_sound _ _ _ _ _ PL l I) as (j & ph & _ & N & LP).
      rewrite Nat.sub_0_r in N.
      assert (G : (i <= i)%nat /\ exists f, nth_error (yielded (Yield font :: evs)) (i - i) = Some f
                    /\ w_setup w i = Ok tt /\ nth_error phrases j = Some ph
                    /\ line_of_pair args w f i j ph l).
      { split; [lia|]. exists font. rewrite Nat.sub_diag. auto. }
      destruct l; simpl in LP; try contradiction.
      * destruct LP as (-> & -> & _ & -> & _). exact G.
      * destruct LP as (-> & -> & _ & -> & _). exact G.
    + apply (line_sound_shift phrases i font (yielded evs) (skipped evs)). now apply IH.
Qed.

Lemma font_lines_complete (phrases : list str) (i : nat) (evs : list FontEvent) (ls : list LogLine) :
  font_lines args w phrases i evs ls ->
  forall k font, nth_error (yielded evs) k = Some font ->
    (forall e, w_setup w (i + k) = Raise e -> In (ErrFontLine (i + k) font e) ls)
    /\ (w_setup w (i + k) = Ok tt ->
        forall j ph, nth_error phrases j = Some ph ->
          exists l, In l ls /\ line_of_pair args w font (i + k) j ph l).
Proof.
  induction 1 as [|i p evs ls _ IH|i font0 e0 evs ls SU _ IH|i font0 block evs ls SU PL _ IH];
    intros k font N.
  - now destruct k.
  - destruct (IH k font N) as [A B]. split.
    + intros e E. right. now apply A.
    + intros E j ph P. destruct (B E j ph P) as (l & I & LP). exists l. split; [now right | exact LP].
  - destruct k as [|k]; simpl in N.
    + inversion N; subst. rewrite Nat.add_0_r. split.
      * intros e E. left. congruence.
      * congruence.
    + replace (i + S k)%nat with (S i + k)%nat by lia.
      destruct (IH k font N) as [A B]. split.
      * intros e E. right. now apply A.
      * intros E j ph P. destruct (B E j ph P) as (l & I & LP).
        exists l. split; [now right | exact LP].
  - destruct k as [|k]; simpl in N.
    + inversion N; subst. rewrite Nat.add_0_r. split.
      * congruence.
      * intros _ j ph P.
        destruct (phrase_lines_complete _ _ _ _ _ PL j ph P) as (l & I & LP).
        exists l. split; [apply in_or_app; now left | exact LP].
    + replace (i + S k)%nat with (S i + k)%nat by lia.
      destruct (IH k font N) as [A B]. split.
      * intros e E. apply in_or_app. right. now apply A.
      * intros E j ph P. destruct (B E j ph P) as (l & I & LP).
        exists l. split; [apply in_or_app; now right | exact LP].
Qed.






End LogLemmas.


Section AttemptLemmas.
Context {db : UnicodeDB}.
Variable args : Args.
Variable w : World.











End AttemptLemmas.



Lemma no_pairs_no_artifacts (output : path) (log : list LogLine) :
  pair_lines log = [] -> artifacts output log = [].
Proof.
  induction log as [|l log IH]; [reflexivity|].
  change (l :: log) with ([l] ++ log). rewrite pair_lines_app, artifacts_app.
  intros H. apply app_eq_nil in H as [H1 H2]. rewrite (IH H2).
  destruct l; simpl in *; try reflexivity; discriminate.
Qed.

Lemma ok_line_artifact (output : path) (log : list LogLine) i j fn ph final :
  In (OkLine i j fn ph final) log -> In (child output final) (artifacts output log).
Proof.
  intros I. unfold artifacts. apply in_flat_map.
  exists (OkLine i j fn ph final). split; [exact I | now left].
Qed.

(** *** What [main] does *)

Section MainLemmas.
Context {db : UnicodeDB}.
Variable args : Args.
Variable w : World.
Variable fs0 : FS.

Let phrases := fst (loaded (load_phrases (a_phrases args) (w_phrase_text w))).
Let evs := iter_ttf_fonts (w_font_tree w) (w_is_file w).

Lemma load_phrases_cases :
  (exists e, w_phrase_text w = Unreadable e
             /\ load_phrases (a_phrases args) (w_phrase_text w) = Raise e)
  \/ (phrases = []
      /\ ((w_phrase_text w = NoFile
           /\ load_phrases (a_phrases args) (w_phrase_text w)
              = Ok ([], [ErrPhraseFileNotFound (a_phrases args)]))
          \/ (exists text, w_phrase_text w = Text text /\ usable_phrases text = []
               /\ load_phrases (a_phrases args) (w_phrase_text w)
                  = Ok ([], [WarnNoUsablePhrases]))))
  \/ (phrases <> []
      /\ load_phrases (a_phrases args) (w_phrase_text w) = Ok (phrases, [])
      /\ exists text, w_phrase_text w = Text text /\ usable_phrases text = phrases).
Proof.
  subst phrases. destruct (w_phrase_text w) as [|e|text] eqn:T.
  - right. left. split; [reflexivity|]. left. auto.
  - left. exists e. auto.
  - right. rewrite usable_loaded. simpl.
    destruct (usable_phrases text) as [|a r] eqn:U.
    + left. split; [reflexivity|]. right. exists text. auto.
    + right. split; [discriminate|]. split; [reflexivity|]. exists text. auto.
Qed.

Lemma main_unreadable (e : exn) :
  w_phrase_text w = Unreadable e -> main args w fs0 = Raise e.
Proof. intros U. unfold main. now rewrite U. Qed.

Lemma main_aborts :
  phrases = [] ->
  (forall e, w_phrase_text w <> Unreadable e) ->
  main args w fs0
  = Ok {| o_state :=
            {| st_fs := fs0;
               st_log := snd (loaded (load_phrases (a_phrases args) (w_phrase_text w)))
                         ++ [ErrNoValidPhrases] |};
          o_driver := NotStarted |}.
Proof.
  intros E NU.
  destruct load_phrases_cases as [(e & U & _)|[(_ & [(_ & L)|(t & _ & _ & L)])|(NE & _)]].
  - now destruct (NU e).
  - unfold main. rewrite L. reflexivity.
  - unfold main. rewrite L. reflexivity.
  - contradiction.
Qed.

Lemma main_cannot_start (e : exn) :
  phrases <> [] -> w_make_driver w = Raise e -> main args w fs0 = Raise e.
Proof.
  intros NE MD.
  destruct load_phrases_cases as [(e' & _ & L)|[(E & _)|(_ & L & _)]].
  - subst phrases. rewrite L in NE. now destruct NE.
  - contradiction.
  - unfold main. rewrite L. cbn [bind]. destruct phrases; [contradiction|].
    unfold bind. now rewrite MD.
Qed.

Lemma main_runs :
  phrases <> [] -> w_make_driver w = Ok tt ->
  exists st,
    main args w fs0 = Ok {| o_state := st; o_driver := Closed |}
    /\ st = font_loop args w phrases O evs {| st_fs := fs0; st_log := [] |}
    /\ extends (a_output args) {| st_fs := fs0; st_log := [] |} st (st_log st)
    /\ font_lines args w phrases O evs (st_log st).
Proof.
  intros NE MD.
  destruct load_phrases_cases as [(e' & _ & L)|[(E & _)|(_ & L & _)]].
  - subst phrases. rewrite L in NE. now destruct NE.
  - contradiction.
  - destruct (font_loop_extends args w phrases evs O {| st_fs := fs0; st_log := [] |})
      as (ls & E & FL).
    exists (font_loop args w phrases O evs {| st_fs := fs0; st_log := [] |}).
    assert (LOG : st_log (font_loop args w phrases O evs {| st_fs := fs0; st_log := [] |}) = ls)
      by (destruct E as [E _]; exact E).
    rewrite LOG. split; [|split; [reflexivity | split; assumption]].
    unfold main. rewrite L. cbn [bind]. destruct phrases eqn:P; [contradiction|].
    unfold bind. rewrite MD. reflexivity.
Qed.

(** A run that returns was aborted for want of phrases, or went through
    the loop. *)
Lemma main_returns (o : Outcome) :
  main args w fs0 = Ok o ->
  (phrases = [] /\ o_driver o = NotStarted /\ st_fs (o_state o) = fs0
   /\ pair_lines (st_log (o_state o)) = []
   /\ forall i j fn ph final, ~ In (OkLine i j fn ph final) (st_log (o_state o)))
  \/ (phrases <> [] /\ o_driver o = Closed
      /\ o_state o = font_loop args w phrases O evs {| st_fs := fs0; st_log := [] |}
      /\ extends (a_output args) {| st_fs := fs0; st_log := [] |} (o_state o)
           (st_log (o_state o))
      /\ font_lines args w phrases O evs (st_log (o_state o))).
Proof.
  intros M. destruct load_phrases_cases as [(e & U & _)|[(E & C)|(NE & L & _)]].
  - rewrite (main_unreadable e U) in M. discriminate.
  - left.
    assert (NU : forall e, w_phrase_text w <> Unreadable e).
    { intros e U. destruct C as [(T & _)|(t & T & _)]; congruence. }
    rewrite (main_aborts E NU) in M. inversion M; subst o. simpl.
    assert (S : snd (loaded (load_phrases (a_phrases args) (w_phrase_text w)))
                = [ErrPhraseFileNotFound (a_phrases args)]
                \/ snd (loaded (load_phrases (a_phrases args) (w_phrase_text w)))
                   = [WarnNoUsablePhrases]).
    { destruct C as [(_ & L)|(t & _ & _ & L)]; rewrite L; [now left | now right]. }
    repeat split; auto.
    + destruct S as [-> | ->]; reflexivity.
    + intros i j fn ph final I. destruct S as [S|S]; rewrite S in I; simpl in I;
        intuition discriminate.
  - right. destruct (w_make_driver w) as [[]|e] eqn:MD.
    + destruct (main_runs NE MD) as (st & M' & ST & E & FL).
      rewrite M' in M. inversion M; subst o. simpl. auto.
    + rewrite (main_cannot_start e NE MD) in M. discriminate.
Qed.

End MainLemmas.

Section RunLemmas.
Context {db : UnicodeDB}.
Variable args : Args.
Variable w : World.
Variable fs0 : FS.
Variable o : Outcome.
Hypothesis RUN : main args w fs0 = Ok o.

Let phrases := fst (loaded (load_phrases (a_phrases args) (w_phrase_text w))).
Let evs := iter_ttf_fonts (w_font_tree w) (w_is_file w).
Let log := st_log (o_state o).







End RunLemmas.

Lemma rfind_dot_app (x y : str) (i : nat) :
  rfind_dot y = Some i -> rfind_dot (x ++ y) = Some (List.length x + i)%nat.
Proof.
  intros H. induction x as [|c x IH]; simpl; [exact H | now rewrite IH].
Qed.

(** The stem and the suffix of a name that ends in [.stl]. *)
Lemma stl_name_parts (x : str) :
  x <> [] ->
  name_stem (x ++ u ".stl") = x /\ name_suffix (x ++ u ".stl") = u ".stl".
Proof.
  intros NE. unfold name_stem, name_suffix, cut_at.
  rewrite (rfind_dot_app x (u ".stl") O eq_refl). rewrite Nat.add_0_r.
  assert (C : (Nat.ltb 0 (List.length x)
               && Nat.ltb (List.length x) (List.length (x ++ u ".stl") - 1))%bool = true).
  { apply andb_true_iff. split; apply Nat.ltb_lt.
    - destruct x; [congruence | simpl; lia].
    - rewrite length_app. simpl. lia. }
  rewrite C. split.
  - rewrite firstn_app, firstn_all, Nat.sub_diag. simpl. apply app_nil_r.
  - rewrite skipn_app, skipn_all, Nat.sub_diag. reflexivity.
Qed.

Lemma numbered_stl_name (d : path) (x : str) (k : nat) :
  x <> [] ->
  name (numbered (child d (x ++ u ".stl")) k)
  = x ++ u "_" ++ fmt_02d k ++ u ".stl".
Proof.
  intros NE. unfold numbered, with_name, stem, suffix.
  rewrite !name_child. destruct (stl_name_parts x NE) as [-> ->]. reflexivity.
Qed.






Lemma font_lines_no_fonts {db : UnicodeDB} (args : Args) (w : World)
    (phrases : list str) (i : nat) (evs : list FontEvent) (ls : list LogLine) :
  font_lines args w phrases i evs ls ->
  yielded evs = [] ->
  ls = map WarnSkipNonTTF (skipped evs).
Proof.
  induction 1 as [|i p evs ls _ IH|i font e evs ls SU _ IH|i font block evs ls SU PL _ IH];
    simpl; intros Y; try discriminate; [reflexivity|].
  now rewrite IH.
Qed.

(** C7, as the code has it: the run ends without going through the
    fonts in three cases. When the phrase file is missing or holds no
    usable phrase, the run is aborted before the browser is started: it
    prints its lines and returns. When the phrase file is there but cannot
    be read, what [read_text] raises leaves [main], before the browser is
    started. When the phrases are loaded and the browser cannot be
    started, what that raises leaves [main]. Otherwise the run returns
    after it has gone through every font: a font whose set-up fails gets
    its error line, and every phrase of a font whose set-up succeeds is
    attempted, whatever fails. An empty list of fonts makes an empty loop:
    nothing is attempted, no file is written, and the lines printed are
    the warnings about the files that are no fonts. [main] raises in no
    other case. *)
Theorem main_aborts_iff {db : UnicodeDB} (args : Args) (w : World) (fs0 : FS) :
  let phrases := fst (loaded (load_phrases (a_phrases args) (w_phrase_text w))) in
  let evs := iter_ttf_fonts (w_font_tree w) (w_is_file w) in
  let fonts := yielded evs in
  let no_phrases :=
    w_phrase_text w = NoFile
    \/ exists text, w_phrase_text w = Text text /\ usable_phrases text = [] in
  (phrases = [] <-> no_phrases \/ exists e, w_phrase_text w = Unreadable e)
  /\ (no_phrases ->
      main args w fs0
      = Ok {| o_state :=
                {| st_fs := fs0;
                   st_log := snd (loaded (load_phrases (a_phrases args) (w_phrase_text w)))
                             ++ [ErrNoValidPhrases] |};
              o_driver := NotStarted |}
      /\ (snd (loaded (load_phrases (a_phrases args) (w_phrase_text w)))
          = [ErrPhraseFileNotFound (a_phrases args)]
          \/ snd (loaded (load_phrases (a_phrases args) (w_phrase_text w)))
             = [WarnNoUsablePhrases]))
  /\ (forall e, w_phrase_text w = Unreadable e -> main args w fs0 = Raise e)
  /\ (phrases <> [] -> forall e, w_make_driver w = Raise e -> main args w fs0 = Raise e)
  /\ (phrases <> [] -> w_make_driver w = Ok tt ->
      exists st,
        main args w fs0 = Ok {| o_state := st; o_driver := Closed |}
        /\ pair_lines (st_log st) = schedule w (List.length phrases) O fonts
        /\ (forall i font, nth_error fonts i = Some font ->
              (exists e, w_setup w i = Raise e /\ In (ErrFontLine i font e) (st_log st))
              \/ (w_setup w i = Ok tt
                  /\ forall j ph, nth_error phrases j = Some ph ->
                       In (i, j) (pair_lines (st_log st))))
        /\ (fonts = [] ->
            st_log st = map WarnSkipNonTTF (skipped evs)
            /\ pair_lines (st_log st) = []
            /\ forall q, st_fs st q = fs0 q))
  /\ (forall o, main args w fs0 = Ok o ->
        (o_driver o = NotStarted <-> no_phrases)
        /\ (o_driver o = Closed <-> phrases <> []))
  /\ (forall e, main args w fs0 = Raise e ->
        w_phrase_text w = Unreadable e
        \/ (phrases <> [] /\ w_make_driver w = Raise e)).
Proof.
  cbv zeta.
  assert (NP : fst (loaded (load_phrases (a_phrases args) (w_phrase_text w))) = []
               <-> (w_phrase_text w = NoFile
                    \/ exists text, w_phrase_text w = Text text /\ usable_phrases text = [])
                   \/ exists e, w_phrase_text w = Unreadable e).
  { destruct (load_phrases_cases args w)
      as [(e & U & L)|[(E & [(T & L)|(t & T & U & L)])|(NE & L & text & T & U)]].
    - split; [eauto|]. intros _. now rewrite L.
    - split; [auto|]. intros _. exact E.
    - split; [intros _; left; right; eauto|]. intros _. exact E.
    - split; [contradiction|].
      intros [[N|(t & T' & U')]|(e & U')]; congruence. }
  assert (AB : (w_phrase_text w = NoFile
                \/ exists text, w_phrase_text w = Text text /\ usable_phrases text = []) ->
               fst (loaded (load_phrases (a_phrases args) (w_phrase_text w))) = []
               /\ forall e, w_phrase_text w <> Unreadable e).
  { intros H. split; [apply NP; now left|].
    intros e U. destruct H as [T|(t & T & _)]; congruence. }
  split; [exact NP|]. split; [|split; [|split; [|split; [|split]]]].
  - intros H. destruct (AB H) as [E NU]. split; [now apply main_aborts|].
    destruct H as [T|(t & T & U)]; rewrite T.
    + now left.
    + right. rewrite usable_loaded, U. reflexivity.
  - intros e. apply main_unreadable.
  - intros NE e. now apply main_cannot_start.
  - intros NE MD. destruct (main_runs args w fs0 NE MD) as (st & M & _ & E & FL).
    exists st. split; [exact M|].
    pose proof (font_lines_pairs _ _ _ _ _ _ FL) as PAIRS.
    split; [exact PAIRS|]. split.
    + intros i font F.
      destruct (font_lines_complete _ _ _ _ _ _ FL i font F) as [A B].
      simpl in A, B. destruct (w_setup w i) as [[]|e] eqn:SU.
      * right. split; [reflexivity|]. intros j ph P.
        destruct (B eq_refl j ph P) as (l & I & LP).
        unfold pair_lines. apply in_flat_map. exists l. split; [exact I|].
        pose proof (line_of_pair_pair _ _ _ _ _ _ _ LP) as X.
        unfold pair_lines in X. simpl in X. rewrite app_nil_r in X.
        rewrite X. now left.
      * left. exists e. split; [reflexivity | now apply A].
    + intros F0. destruct E as (_ & K & G & _).
      split; [now apply (font_lines_no_fonts _ _ _ _ _ _ FL)|].
      rewrite PAIRS, F0. split; [reflexivity|].
      intros q. rewrite (no_pairs_no_artifacts (a_output args) (st_log st)) in G
        by (now rewrite PAIRS, F0).
      destruct (st_fs st q) eqn:Q.
      * destruct (G q Q) as [Q0|[]]. simpl in Q0. now rewrite Q0.
      * destruct (fs0 q) eqn:Q0; [|reflexivity].
        specialize (K q Q0). congruence.
  - intros o M.
    destruct (main_returns args w fs0 o M) as [(E & D & _)|(NE & D & _)].
    + split.
      * split; [|auto]. intros _. apply NP in E as [E|(e & U)]; [exact E|].
        rewrite (main_unreadable args w fs0 e U) in M. discriminate.
      * split; [congruence | contradiction].
    + split.
      * split; [congruence|]. intros H. now destruct (AB H).
      * tauto.
  - intros e M.
    destruct (load_phrases_cases args w)
      as [(e' & U & L)|[(E & C)|(NE & L & _)]].
    + left. rewrite (main_unreadable args w fs0 e' U) in M. congruence.
    + exfalso.
      assert (NU : forall e, w_phrase_text w <> Unreadable e).
      { intros e0 U. destruct C as [(T & _)|(t & T & _)]; congruence. }
      rewrite (main_aborts args w fs0 E NU) in M. discriminate.
    + right. split; [exact NE|].
      destruct (w_make_driver w) as [[]|e'] eqn:MD.
      * destruct (main_runs args w fs0 NE MD) as (st & M' & _). congruence.
      * rewrite (main_cannot_start args w fs0 e' NE MD) in M. congruence.
Qed.

(** C7, as the claim words it, fails: with a phrase and an empty tree of
    fonts the run is not aborted; the browser is started and closed, and
    the log stays empty. *)
Lemma main_runs_without_fonts :
  let w0 := demo_world [] (u "hello") never in
  yielded (iter_ttf_fonts (db := latin1_db) (w_font_tree w0) (w_is_file w0)) = []
  /\ main (db := latin1_db) demo_args w0 no_files
     = Ok {| o_state := {| st_fs := no_files; st_log := [] |};
             o_driver := Closed |}.
Proof. split; reflexivity. Qed.

Lemma out_name_base {db : UnicodeDB} (font : path) (ph : str) :
  let base := sanitize_stem (stem font) 80 ++ u "__" ++ sanitize_stem ph 80 in
  out_name font ph = base ++ u ".stl" /\ base <> [].
Proof.
  cbv zeta. unfold out_name. split.
  - now rewrite <- !app_assoc.
  - destruct (sanitize_stem (stem font) 80); discriminate.
Qed.

(** C8: the artifact of a pair that succeeds is in the output directory
    under the sanitized stem of the font, two underscores, the sanitized
    phrase and [.stl], with a number [_01] to [_9999] before the [.stl]
    when that name was taken. [MyFont.ttf] and [Hello World!] give
    [MyFont__Hello_World.stl]. *)
Theorem artifact_names {db : UnicodeDB} (args : Args) (w : World) (fs0 : FS) (o : Outcome) :
  main args w fs0 = Ok o ->
  let phrases := fst (loaded (load_phrases (a_phrases args) (w_phrase_text w))) in
  let fonts := yielded (iter_ttf_fonts (w_font_tree w) (w_is_file w)) in
  (forall i j fn ph final,
     In (OkLine i j fn ph final) (st_log (o_state o)) ->
     exists font,
       nth_error fonts i = Some font
       /\ nth_error phrases j = Some ph
       /\ fn = name font
       /\ st_fs (o_state o) (child (a_output args) final) = true
       /\ let base := sanitize_stem (stem font) 80 ++ u "__" ++ sanitize_stem ph 80 in
          (final = base ++ u ".stl"
           \/ exists k, (1 <= k <= 9999)%nat
                        /\ final = base ++ u "_" ++ fmt_02d k ++ u ".stl"))
  /\ out_name [u "fonts"; u "MyFont.ttf"] (u "Hello World!")
     = u "MyFont__Hello_World.stl"
  /\ sanitize_stem (u "Hello, World! / 2024") 80 = u "Hello_World_2024".
Proof.
  intros M. cbv zeta. split; [|split; reflexivity].
  intros i j fn ph final I.
  destruct (main_returns args w fs0 o M) as [(_ & _ & _ & _ & NO)|(_ & _ & _ & E & FL)].
  - now apply NO in I.
  - pose proof (font_lines_sound _ _ _ _ _ _ FL _ I) as S. simpl in S.
    destruct S as (_ & font & F & _ & P & (_ & _ & -> & _ & _ & _ & V)).
    rewrite Nat.sub_0_r in F. exists font.
    destruct E as (_ & _ & _ & _ & A).
    destruct (A _ (ok_line_artifact (a_output args) _ _ _ _ _ _ I)) as [_ T].
    repeat split; auto.
    destruct (out_name_base font ph) as [B NE].
    destruct V as [->|(k & K & ->)].
    + left. exact B.
    + right. exists k. split; [exact K|].
      rewrite B. now apply numbered_stl_name.
Qed.

(** The run of [MyFont.ttf] with [Hello World!]: its artifact is there. *)
Lemma artifact_names_witness :
  let w0 := demo_world [[u "fonts"; u "MyFont.ttf"]] (u "Hello World!") never in
  let o := outcome_of (main (db := latin1_db) demo_args w0 no_files) in
  In (OkLine 0 0 (u "MyFont.ttf") (u "Hello World!") (u "MyFont__Hello_World.stl"))
     (st_log (o_state o))
  /\ st_fs (o_state o) [u "out"; u "MyFont__Hello_World.stl"] = true.
Proof.
  cbv zeta.
  assert (I : In (OkLine 0 0 (u "MyFont.ttf") (u "Hello World!")
                    (u "MyFont__Hello_World.stl"))
                (st_log (o_state (outcome_of
                   (main (db := latin1_db) demo_args
                      (demo_world [[u "fonts"; u "MyFont.ttf"]] (u "Hello World!") never)
                      no_files)))))
    by (left; vm_compute; reflexivity).
  split; [exact I|].
  destruct (proj1 (@artifact_names latin1_db demo_args
                     (demo_world [[u "fonts"; u "MyFont.ttf"]] (u "Hello World!") never)
                     no_files _ ltac:(vm_compute; reflexivity)) _ _ _ _ _ I)
    as (font & _ & _ & _ & T & _).
  exact T.
Defined.

(** ** The watcher, apart from the window of quiescence *)

(** What [wait_for_new_download] returns is an entry of one of the polls:
    a regular file of the download directory that is not in the snapshot
    taken before the trigger and is not flagged partial. *)
Theorem watcher_result_is_new {db : UnicodeDB}
    (dir : path) (before : path -> bool) (timeout_s t0 : Z) (polls : nat -> Poll) :
  match wait_for_new_download dir before timeout_s t0 polls with
  | Ok p =>
      is_child dir p = true
      /\ before p = false
      /\ is_partial p = false
      /\ exists k f, In f (p_listing (polls k)) /\ f_is_file f = true
                     /\ p = child dir (f_name f)
  | Raise _ => True
  end.
Proof.
  pose proof (wait_for_new_download_result dir before timeout_s t0 polls) as R.
  destruct (wait_for_new_download dir before timeout_s t0 polls) as [p|e]; [|exact I].
  destruct R as (k & f & I & E & F & B & P).
  repeat split; auto.
  - rewrite E. apply is_child_child.
  - now exists k, f.
Qed.

(* ================================================================= *)
(** * Further properties *)

(** ** The watcher: what the window of quiescence covers *)

Section Quiescence.
Context {db : UnicodeDB}.
Variable download_dir : path.
Variable before : path -> bool.
Variable deadline : Z.
Variable polls : nat -> Poll.
Variable t0 : Z.

Local Open Scope Z_scope.

Lemma tick_lower_bound (k : nat) : t0 + 200 * Z.of_nat k <= tick polls t0 k.
Proof.
  induction k as [|k IH]; simpl tick; [lia|].
  pose proof (next_tick_advances polls k (tick polls t0 k)). lia.
Qed.

Lemma tick_monotone (j k : nat) : (j <= k)%nat -> tick polls t0 j <= tick polls t0 k.
Proof.
  induction 1 as [|k _ IH]; [lia|]. simpl tick.
  pose proof (next_tick_advances polls k (tick polls t0 k)). lia.
Qed.

(** What the loop knows when it holds a size and the time since which
    that size has been seen. *)
Let tracked (k : nat) (ls ss : option Z) : Prop :=
  match ls, ss with
  | Some s, Some since =>
      exists k1, (k1 < k)%nat
        /\ since = now_at polls t0 k1
        /\ candidate_size download_dir before polls k1 = Some s
        /\ forall k', (k1 <= k' < k)%nat ->
             candidate_size download_dir before polls k' = None
             \/ candidate_size download_dir before polls k' = Some s
  | None, None => True
  | _, _ => False
  end.

(** A turn that reads no size has found nothing new. *)
Let no_stat_failed (k : nat) : Prop :=
  forall k', (k' < k)%nat ->
    candidate_size download_dir before polls k' = None ->
    new_files download_dir before polls k' = [].

Lemma poll_loop_quiescent (fuel : nat) :
  forall k ls ss p,
    poll_loop download_dir before deadline polls fuel k (tick polls t0 k) ls ss = Ok p ->
    tracked k ls ss ->
    no_stat_failed k ->
    exists k1 k2 f,
      (k1 < k2)%nat
      /\ candidate download_dir before polls k2 = Some f
      /\ p = child download_dir (f_name f)
      /\ candidate_size download_dir before polls k1 = Some (f_size f)
      /\ (forall k', (k1 <= k' <= k2)%nat ->
            candidate_size download_dir before polls k' = None
            \/ candidate_size download_dir before polls k' = Some (f_size f))
      /\ 1000 <= now_at polls t0 k2 - now_at polls t0 k1
      /\ tick polls t0 k2 < deadline
      /\ no_stat_failed (S k2).
Proof.
  induction fuel as [|fuel IH]; intros k ls ss p; cbn [poll_loop]; [discriminate|].
  destruct (tick polls t0 k <? deadline) eqn:T; [|discriminate].
  apply Z.ltb_lt in T.
  change (next_tick polls k (tick polls t0 k)) with (tick polls t0 (S k)).
  destruct (new_files download_dir before polls k) as [|x rest] eqn:N.
  - intros H TR NS. apply (IH _ _ _ _ H).
    + assert (C : candidate_size download_dir before polls k = None)
        by (unfold candidate_size, candidate; now rewrite N).
      destruct ls as [s|], ss as [since|]; simpl in *; try contradiction; auto.
      destruct TR as (k1 & L & E & C1 & R). exists k1. repeat split; auto.
      intros k' K'. destruct (Nat.eq_dec k' k) as [->|]; [now left | apply R; lia].
    + intros k' K' C'. destruct (Nat.eq_dec k' k) as [->|]; [exact N | apply NS; [lia | exact C']].
  - destruct (existsb f_gone_mtime (x :: rest)) eqn:GM; [discriminate|].
    destruct (f_gone_size (max_by_mtime x rest)) eqn:GS; [discriminate|].
    assert (C : candidate download_dir before polls k = Some (max_by_mtime x rest))
      by (unfold candidate; now rewrite N, GM).
    assert (CS : candidate_size download_dir before polls k
                 = Some (f_size (max_by_mtime x rest)))
      by (unfold candidate_size; now rewrite C, GS).
    assert (NS' : no_stat_failed k -> no_stat_failed (S k)).
    { intros NS k' K' C'. destruct (Nat.eq_dec k' k) as [->|]; [congruence|].
      apply NS; [lia | exact C']. }
    destruct (size_differs ls (f_size (max_by_mtime x rest))) eqn:SD.
    + intros H _ NS. apply (IH _ _ _ _ H); [|now apply NS']. simpl.
      exists k. repeat split; auto.
      intros k' K'. replace k' with k by lia. now right.
    + destruct ls as [s|]; simpl in SD; [|discriminate].
      apply negb_false_iff, Z.eqb_eq in SD. subst s.
      destruct ss as [since|]; [|intros _ []].
      destruct (1000 <=? tick polls t0 k + Z.of_N (p_work (polls k)) - since) eqn:W.
      * intros H (k1 & L & E & C1 & R) NS. inversion H; subst p; clear H.
        apply Z.leb_le in W.
        exists k1, k, (max_by_mtime x rest).
        split; [exact L|]. split; [exact C|]. split; [reflexivity|].
        split; [exact C1|]. split.
        { intros k' K'. destruct (Nat.eq_dec k' k) as [->|]; [now right | apply R; lia]. }
        split; [unfold now_at at 1; rewrite <- E; exact W|].
        split; [exact T | now apply NS'].
      * intros H (k1 & L & E & C1 & R) NS. apply (IH _ _ _ _ H); [|now apply NS']. simpl.
        exists k1. repeat split; auto.
        intros k' K'. destruct (Nat.eq_dec k' k) as [->|]; [now right | apply R; lia].
Qed.

(** A loop that finds nothing new at any turn before the deadline ends
    with the timeout. *)
Lemma poll_loop_times_out (fuel : nat) :
  forall k ls ss,
    (forall k', (k <= k')%nat -> tick polls t0 k' < deadline ->
       new_files download_dir before polls k' = []) ->
    poll_loop download_dir before deadline polls fuel k (tick polls t0 k) ls ss
    = Raise TimeoutError.
Proof.
  induction fuel as [|fuel IH]; intros k ls ss H; cbn [poll_loop]; [reflexivity|].
  destruct (tick polls t0 k <? deadline) eqn:T; [|reflexivity].
  apply Z.ltb_lt in T. rewrite (H k (Nat.le_refl k) T).
  change (next_tick polls k (tick polls t0 k)) with (tick polls t0 (S k)).
  apply IH. intros k' K'. apply H. lia.
Qed.

End Quiescence.

(** When [wait_for_new_download] returns a path, the candidate of the
    turn that returns gives the path, and there is an earlier turn, a
    second or more before, since which every turn that found a new file had
    a candidate of that same size. Turns that find nothing new do not
    restart the window, and the candidates need not be one file. So no
    path is returned in the first second after the call. No [stat] has
    failed up to the turn that returns: a turn without a size is one that
    found nothing new. *)
Theorem watcher_window {db : UnicodeDB}
    (dir : path) (before : path -> bool) (timeout_s t0 : Z) (polls : nat -> Poll) :
  match wait_for_new_download dir before timeout_s t0 polls with
  | Ok p =>
      exists k1 k2 f,
        (k1 < k2)%nat
        /\ candidate dir before polls k2 = Some f
        /\ p = child dir (f_name f)
        /\ candidate_size dir before polls k1 = Some (f_size f)
        /\ (forall k, (k1 <= k <= k2)%nat ->
              candidate_size dir before polls k = None
              \/ candidate_size dir before polls k = Some (f_size f))
        /\ (1000 <= now_at polls t0 k2 - now_at polls t0 k1)%Z
        /\ (tick polls t0 k2 < t0 + 1000 * timeout_s)%Z
        /\ (t0 + 1000 <= now_at polls t0 k2)%Z
        /\ (forall k, (k <= k2)%nat ->
              candidate_size dir before polls k = None ->
              new_files dir before polls k = [])
  | Raise _ => True
  end.
Proof.
  destruct (wait_for_new_download dir before timeout_s t0 polls) as [p|e] eqn:W; [|exact I].
  unfold wait_for_new_download in W.
  destruct (poll_loop_quiescent dir before _ polls t0 _ O None None p W I
              ltac:(intros k' K'; lia))
    as (k1 & k2 & f & L & C & E & C1 & R & D & T & NS).
  exists k1, k2, f. repeat split; auto.
  - pose proof (tick_lower_bound polls t0 k1). unfold now_at in *. lia.
  - intros k K. apply NS. lia.
Qed.

Section WatcherCases.
Context {db : UnicodeDB}.
Variable download_dir : path.
Variable before : path -> bool.
Variable polls : nat -> Poll.

Local Open Scope Z_scope.

Lemma candidate_listed (k : nat) (f : FileStat) :
  candidate download_dir before polls k = Some f ->
  In f (p_listing (polls k))
  /\ f_is_file f = true
  /\ before (child download_dir (f_name f)) = false
  /\ is_partial (child download_dir (f_name f)) = false.
Proof.
  unfold candidate. destruct (new_files download_dir before polls k) as [|x rest] eqn:N;
    [discriminate|].
  destruct (existsb f_gone_mtime (x :: rest)); [discriminate|].
  intros H. inversion H; subst f; clear H.
  pose proof (max_by_mtime_in x rest) as M. rewrite <- N in M.
  unfold new_files, list_files in M.
  apply filter_In in M as [M C1]. apply filter_In in M as [M C2].
  apply filter_In in M as [M C3].
  apply andb_true_iff in C1 as [_ C1]. apply negb_true_iff in C1, C2. auto.
Qed.

Lemma filter_none {A : Type} (g : A -> bool) (l : list A) :
  (forall a, In a l -> g a = false) -> filter g l = [].
Proof.
  induction l as [|a l IH]; intros H; simpl; [reflexivity|].
  rewrite (H a) by now left. apply IH. intros b B. apply H. now right.
Qed.

(** A turn whose entries are all old, partial or no regular files finds
    nothing new. *)
Lemma nothing_new (k : nat) :
  (forall f, In f (p_listing (polls k)) ->
     f_is_file f = false
     \/ before (child download_dir (f_name f)) = true
     \/ is_partial (child download_dir (f_name f)) = true) ->
  new_files download_dir before polls k = [].
Proof.
  intros H. unfold new_files, list_files. apply filter_none.
  intros f F. apply filter_In in F as [F B]. apply filter_In in F as [F R].
  apply negb_true_iff in B.
  destruct (H f F) as [X|[X|X]]; [congruence | congruence |].
  rewrite X. apply andb_false_r.
Qed.

End WatcherCases.

(** When the newest new file is the file [nm] at every turn, what
    [wait_for_new_download] returns is that file, seen with one size at two
    turns a second or more apart and with no other size at any turn in
    between. *)
Theorem watcher_window_one_file {db : UnicodeDB}
    (dir : path) (before : path -> bool) (timeout_s t0 : Z) (polls : nat -> Poll)
    (nm : str) :
  (forall k f, candidate dir before polls k = Some f -> f_name f = nm) ->
  match wait_for_new_download dir before timeout_s t0 polls with
  | Ok p =>
      p = child dir nm
      /\ exists k1 k2 size,
           (k1 < k2)%nat
           /\ (1000 <= now_at polls t0 k2 - now_at polls t0 k1)%Z
           /\ seen_with_size (polls k1) nm size
           /\ seen_with_size (polls k2) nm size
           /\ forall k f, (k1 <= k <= k2)%nat ->
                candidate dir before polls k = Some f ->
                f_name f = nm /\ f_size f = size
  | Raise _ => True
  end.
Proof.
  intros ONE.
  destruct (wait_for_new_download dir before timeout_s t0 polls) as [p|e] eqn:W; [|exact I].
  unfold wait_for_new_download in W.
  destruct (poll_loop_quiescent dir before _ polls t0 _ O None None p W I
              ltac:(intros k' K'; lia))
    as (k1 & k2 & f & L & C & E & C1 & R & D & T & NS).
  split; [now rewrite E, (ONE k2 f C)|].
  exists k1, k2, (f_size f). repeat split; auto.
  - unfold candidate_size in C1.
    destruct (candidate dir before polls k1) as [f1|] eqn:F1; [|discriminate].
    destruct (f_gone_size f1); [discriminate|].
    assert (S1 : f_size f1 = f_size f) by congruence.
    exists f1. split; [now apply (candidate_listed dir before polls k1)|].
    split; [now apply (ONE k1) | exact S1].
  - exists f. split; [now apply (candidate_listed dir before polls k2)|].
    split; [now apply (ONE k2) | reflexivity].
  - eauto.
  - destruct (R k H) as [N|S].
    + apply NS in N; [|lia]. unfold candidate in H0. rewrite N in H0. discriminate.
    + unfold candidate_size in S. rewrite H0 in S.
      destruct (f_gone_size f0); [discriminate | congruence].
Qed.

(** The download of [steady_poll], a file [text.stl] that is there from
    the first turn with 10 bytes, is returned. *)
Lemma watcher_window_one_file_witness :
  wait_for_new_download (db := latin1_db) [u "tmp"] (fun _ => false) 180 0
    (fun _ => steady_poll) = Ok [u "tmp"; u "text.stl"].
Proof.
  pose proof (@watcher_window_one_file latin1_db [u "tmp"] (fun _ => false) 180 0
                (fun _ => steady_poll) (u "text.stl")) as T.
  assert (ONE : forall k f,
             candidate (db := latin1_db) [u "tmp"] (fun _ => false)
               (fun _ => steady_poll) k = Some f -> f_name f = u "text.stl").
  { intros k f C. vm_compute in C. inversion C. reflexivity. }
  specialize (T ONE).
  destruct (wait_for_new_download (db := latin1_db) [u "tmp"] (fun _ => false) 180 0
              (fun _ => steady_poll)) as [p|e] eqn:W.
  - destruct T as [-> _]. reflexivity.
  - vm_compute in W. discriminate.
Defined.

(** A new file whose size is the same from the first turn on is returned
    at the first turn that reads the clock a second or more after the
    first turn did, if that turn starts before the deadline. *)
Theorem watcher_returns_steady_file {db : UnicodeDB}
    (dir : path) (before : path -> bool) (timeout_s t0 : Z) (polls : nat -> Poll)
    (K : nat) (f : FileStat) (size : Z) :
  (1 <= K)%nat ->
  (forall k, (k <= K)%nat -> candidate_size dir before polls k = Some size) ->
  candidate dir before polls K = Some f ->
  (forall k, (1 <= k < K)%nat -> (now_at polls t0 k - now_at polls t0 O < 1000)%Z) ->
  (1000 <= now_at polls t0 K - now_at polls t0 O)%Z ->
  (tick polls t0 K < t0 + 1000 * timeout_s)%Z ->
  wait_for_new_download dir before timeout_s t0 polls = Ok (child dir (f_name f)).
Proof.
  intros K1 SAME CK EARLY LATE DL.
  set (deadline := (t0 + 1000 * timeout_s)%Z) in *.
  assert (NF : forall k, (k <= K)%nat ->
             exists x rest, new_files dir before polls k = x :: rest
                            /\ existsb f_gone_mtime (x :: rest) = false
                            /\ f_gone_size (max_by_mtime x rest) = false
                            /\ f_size (max_by_mtime x rest) = size).
  { intros k Hk. specialize (SAME k Hk). unfold candidate_size, candidate in SAME.
    destruct (new_files dir before polls k) as [|x rest]; [discriminate|].
    destruct (existsb f_gone_mtime (x :: rest)) eqn:GM; [discriminate|].
    destruct (f_gone_size (max_by_mtime x rest)) eqn:GS; [discriminate|].
    inversion SAME. exists x, rest. auto. }
  assert (SD : size_differs (Some size) size = false)
    by (simpl; now rewrite Z.eqb_refl).
  assert (RUN : forall d j, (K - j = d)%nat -> (1 <= j <= K)%nat ->
             poll_run dir before deadline polls j (tick polls t0 j)
               (Some size) (Some (now_at polls t0 O)) (Ok (child dir (f_name f)))).
  { induction d as [|d IH]; intros j D J.
    - assert (j = K) by lia. subst j.
      destruct (NF K (Nat.le_refl K)) as (x & rest & N & GM & GS & SZ).
      unfold candidate in CK. rewrite N, GM in CK. inversion CK; subst f.
      eapply run_return; eauto. now rewrite SZ.
    - destruct (NF j ltac:(lia)) as (x & rest & N & GM & GS & SZ).
      eapply run_wait; eauto.
      + pose proof (tick_monotone polls t0 j K ltac:(lia)). lia.
      + now rewrite SZ.
      + apply (EARLY j). lia.
      + apply (IH (S j)); lia. }
  assert (R0 : poll_run dir before deadline polls O t0 None None
                 (Ok (child dir (f_name f)))).
  { destruct (NF O ltac:(lia)) as (x & rest & N & GM & GS & SZ).
    eapply run_size_changed; eauto.
    - pose proof (tick_monotone polls t0 O K ltac:(lia)). simpl in *. lia.
    - rewrite SZ. apply (RUN (K - 1)%nat 1%nat); lia. }
  eapply poll_run_functional; [|exact R0].
  unfold wait_for_new_download. apply poll_loop_runs; lia.
Qed.

Lemma watcher_returns_steady_file_witness :
  wait_for_new_download (db := latin1_db) [u "tmp"] (fun _ => false) 2 0
    (fun _ => steady_poll) = Ok [u "tmp"; u "text.stl"].
Proof.
  apply (@watcher_returns_steady_file latin1_db [u "tmp"] (fun _ => false) 2 0
           (fun _ => steady_poll) 5 (entry "text.stl" 1 10) 10).
  - lia.
  - intros k _. reflexivity.
  - reflexivity.
  - intros k Hk. unfold now_at.
    do 5 (destruct k as [|k]; [vm_compute; try reflexivity; lia|]). lia.
  - vm_compute. discriminate.
  - vm_compute. reflexivity.
Defined.

(** When every entry that the turns before the deadline list is in the
    snapshot, or flagged partial, or no regular file, the call raises the
    timeout. *)
Theorem watcher_times_out {db : UnicodeDB}
    (dir : path) (before : path -> bool) (timeout_s t0 : Z) (polls : nat -> Poll) :
  (forall k f, (tick polls t0 k < t0 + 1000 * timeout_s)%Z ->
     In f (p_listing (polls k)) ->
     f_is_file f = false
     \/ before (child dir (f_name f)) = true
     \/ is_partial (child dir (f_name f)) = true) ->
  wait_for_new_download dir before timeout_s t0 polls = Raise TimeoutError.
Proof.
  intros OLD. unfold wait_for_new_download.
  apply (poll_loop_times_out dir before _ polls t0).
  intros k _ T. apply nothing_new. intros g G. now apply (OLD k).
Qed.

(** A download that stays [text.stl.part] until the deadline. *)
Lemma watcher_times_out_witness :
  wait_for_new_download (db := latin1_db) [u "tmp"] (fun _ => false) 180 0
    (fun _ => {| p_listing := [entry "text.stl.part" 1 10];
                 p_work := 0; p_over := 0 |})
  = Raise TimeoutError.
Proof.
  apply (@watcher_times_out latin1_db).
  intros k f _ F. simpl in F. destruct F as [<-|[]].
  right. right. vm_compute. reflexivity.
Defined.

(** With a timeout of zero or less the call raises the timeout at once,
    whatever the directory holds. *)
Theorem watcher_no_time {db : UnicodeDB}
    (dir : path) (before : path -> bool) (timeout_s t0 : Z) (polls : nat -> Poll) :
  (timeout_s <= 0)%Z ->
  wait_for_new_download dir before timeout_s t0 polls = Raise TimeoutError.
Proof.
  intros NEG. unfold wait_for_new_download.
  apply (poll_loop_times_out dir before _ polls t0).
  intros k _ T. pose proof (tick_lower_bound polls t0 k). lia.
Qed.

Lemma watcher_no_time_witness :
  wait_for_new_download (db := latin1_db) [u "tmp"] (fun _ => false) 0 0
    (fun _ => steady_poll) = Raise TimeoutError.
Proof. apply (@watcher_no_time latin1_db). lia. Defined.

Lemma poll_loop_blind {db : UnicodeDB}
    (dir : path) (before : path -> bool) (deadline t0 : Z) (polls polls' : nat -> Poll) :
  (forall k, (tick polls t0 k < deadline)%Z -> polls' k = polls k) ->
  forall fuel k ls ss,
    poll_loop dir before deadline polls' fuel k (tick polls t0 k) ls ss
    = poll_loop dir before deadline polls fuel k (tick polls t0 k) ls ss.
Proof.
  intros SAME fuel.
  induction fuel as [|fuel IH]; intros k ls ss; cbn [poll_loop]; [reflexivity|].
  destruct (tick polls t0 k <? deadline)%Z eqn:T; [|reflexivity].
  apply Z.ltb_lt in T.
  assert (N : new_files dir before polls' k = new_files dir before polls k)
    by (unfold new_files; now rewrite (SAME k T)).
  assert (X : next_tick polls' k (tick polls t0 k) = tick polls t0 (S k))
    by (simpl tick; unfold next_tick; now rewrite (SAME k T)).
  change (next_tick polls k (tick polls t0 k)) with (tick polls t0 (S k)).
  rewrite N, X, (SAME k T).
  destruct (new_files dir before polls k) as [|x rest]; [apply IH|].
  destruct (existsb f_gone_mtime (x :: rest)); [reflexivity|].
  destruct (f_gone_size (max_by_mtime x rest)); [reflexivity|].
  destruct (size_differs ls (f_size (max_by_mtime x rest))); [apply IH|].
  destruct ss as [since|]; [|apply IH].
  destruct (1000 <=? _)%Z; [reflexivity | apply IH].
Qed.

(** The call reads no turn that starts at the deadline or after: two
    directories that show the same to the turns before the deadline give
    the same result. *)
Theorem watcher_blind_after_deadline {db : UnicodeDB}
    (dir : path) (before : path -> bool) (timeout_s t0 : Z) (polls polls' : nat -> Poll) :
  (forall k, (tick polls t0 k < t0 + 1000 * timeout_s)%Z -> polls' k = polls k) ->
  wait_for_new_download dir before timeout_s t0 polls'
  = wait_for_new_download dir before timeout_s t0 polls.
Proof.
  intros SAME. unfold wait_for_new_download.
  apply (poll_loop_blind dir before _ t0 polls polls' SAME _ O).
Qed.

Lemma watcher_blind_after_deadline_witness :
  wait_for_new_download (db := latin1_db) [u "tmp"] (fun _ => false) 1 0
    (fun k => if Nat.ltb k 5 then steady_poll
              else {| p_listing := []; p_work := 0; p_over := 0 |})
  = wait_for_new_download (db := latin1_db) [u "tmp"] (fun _ => false) 1 0
      (fun _ => steady_poll).
Proof.
  apply (@watcher_blind_after_deadline latin1_db).
  intros k T.
  destruct (Nat.ltb k 5) eqn:K; [reflexivity|].
  apply Nat.ltb_ge in K.
  pose proof (tick_lower_bound (fun _ => steady_poll) 0 k). lia.
Defined.

(** ** The relocator: names and effect *)

Lemma u_inj (a b : string) : u a = u b -> a = b.
Proof.
  unfold u. intros H.
  rewrite <- (string_of_list_ascii_of_string a), <- (string_of_list_ascii_of_string b).
  f_equal. revert H.
  generalize (list_ascii_of_string a) (list_ascii_of_string b).
  induction l as [|x l IH]; intros [|y l']; simpl; try discriminate; [reflexivity|].
  intros H. inversion H as [[X R]]. f_equal; [|now apply IH].
  rewrite <- (ascii_N_embedding x), <- (ascii_N_embedding y). now rewrite X.
Qed.

Lemma digits_inj (i j : nat) :
  u (NilEmpty.string_of_uint (Nat.to_uint i))
  = u (NilEmpty.string_of_uint (Nat.to_uint j)) -> i = j.
Proof.
  intros H. apply u_inj in H.
  apply (f_equal NilEmpty.uint_of_string) in H. rewrite !NilEmpty.usu in H.
  inversion H. now apply DecimalNat.Unsigned.to_uint_inj.
Qed.

Lemma to_uint_normal (j : nat) : Nat.to_uint j = Decimal.unorm (Nat.to_uint j).
Proof.
  rewrite <- (DecimalNat.Unsigned.to_of (Nat.to_uint j)).
  now rewrite DecimalNat.Unsigned.of_to.
Qed.

(** A numeral of two digits or more does not start with a zero. *)
Lemma digits_no_leading_zero (j : nat) (c : char) (r : str) :
  u (NilEmpty.string_of_uint (Nat.to_uint j)) <> 48 :: c :: r.
Proof.
  pose proof (to_uint_normal j) as NORM.
  destruct (Nat.to_uint j) as [|d|d|d|d|d|d|d|d|d|d] eqn:E;
    try (unfold u; simpl; discriminate).
  intros H.
  assert (D : d <> Decimal.Nil) by (intros ->; unfold u in H; simpl in H; discriminate).
  rewrite DecimalFacts.unorm_D0 in NORM. unfold Decimal.unorm in NORM.
  pose proof (DecimalFacts.nzhead_nonzero d d) as NZ.
  destruct (Decimal.nzhead d) eqn:Z; congruence.
Qed.

Lemma fmt_02d_inj (i j : nat) : fmt_02d i = fmt_02d j -> i = j.
Proof.
  unfold fmt_02d. intros H. apply digits_inj.
  pose proof (digits_no_leading_zero i) as Zi.
  pose proof (digits_no_leading_zero j) as Zj.
  destruct (u (NilEmpty.string_of_uint (Nat.to_uint i))) as [|a [|a' ra]];
    destruct (u (NilEmpty.string_of_uint (Nat.to_uint j))) as [|b [|b' rb]];
    try discriminate; try congruence;
    inversion H; subst; exfalso;
    first [ now apply (Zj b' rb) | now apply (Zi a' ra) ].
Qed.

(** Every character of [f"{i:02d}"] is a digit, and there are two or
    more. *)
Lemma digits_are_digits (d : Decimal.uint) :
  Forall (fun c => in_range 48 57 c = true) (u (NilEmpty.string_of_uint d)).
Proof.
  induction d; unfold u in *; simpl; constructor; auto.
Qed.

Lemma fmt_02d_digits (i : nat) :
  Forall (fun c => in_range 48 57 c = true) (fmt_02d i)
  /\ (2 <= List.length (fmt_02d i))%nat.
Proof.
  unfold fmt_02d.
  pose proof (digits_are_digits (Nat.to_uint i)) as D.
  assert (NE : u (NilEmpty.string_of_uint (Nat.to_uint i)) <> []).
  { pose proof (to_uint_normal i) as NORM.
    destruct (Nat.to_uint i) eqn:E; unfold u; simpl; discriminate. }
  destruct (u (NilEmpty.string_of_uint (Nat.to_uint i))) as [|a [|b r]]; [congruence| |].
  - split; [constructor; [reflexivity | exact D] | simpl; lia].
  - split; [exact D | simpl; lia].
Qed.

Lemma name_splits (nm : str) : nm = name_stem nm ++ name_suffix nm.
Proof. unfold name_stem, name_suffix. symmetry. apply firstn_skipn. Qed.

Lemma path_splits (p : path) : p <> [] -> p = child (parent p) (name p).
Proof. intros NE. unfold child, parent, name. now apply app_removelast_last. Qed.

Lemma child_inj (d : path) (a b : str) : child d a = child d b -> a = b.
Proof. unfold child. intros H. apply app_inv_head in H. now inversion H. Qed.

Lemma numbered_name (dst : path) (i : nat) :
  name (numbered dst i) = stem dst ++ u "_" ++ fmt_02d i ++ suffix dst.
Proof. unfold numbered, with_name. apply name_child. Qed.

Lemma numbered_inj (dst : path) (i j : nat) :
  numbered dst i = numbered dst j -> i = j.
Proof.
  unfold numbered, with_name. intros H. apply child_inj in H.
  apply app_inv_head in H. apply app_inv_head in H. apply app_inv_tail in H.
  now apply fmt_02d_inj.
Qed.

Lemma numbered_not_dst (dst : path) (i : nat) : numbered dst i <> dst.
Proof.
  intros H. destruct dst as [|c r] eqn:D.
  - unfold numbered, with_name, child in H. now destruct (parent []).
  - rewrite <- D in *. assert (NE : dst <> []) by (subst; discriminate).
    apply (f_equal name) in H. rewrite numbered_name in H.
    apply (f_equal (@List.length _)) in H.
    pose proof (f_equal (@List.length _) (name_splits (name dst))) as L.
    fold (stem dst) (suffix dst) in L.
    rewrite length_app in L. repeat (rewrite length_app in H; simpl in H). lia.
Qed.






Lemma fs_move_elsewhere (fs : FS) (src dst q : path) :
  q <> dst -> fs_move fs src dst q = if path_eqb q src then false else fs q.
Proof. intros N. unfold fs_move. apply path_eqb_neq in N. now rewrite N. Qed.

Lemma numbered_parent (dst : path) (i : nat) : parent (numbered dst i) = parent dst.
Proof. unfold numbered, with_name. apply parent_child. Qed.

(** What a move changes: the path returned was free and is taken after,
    in the directory of the destination; the source is gone from where it
    was; every other path is as before. *)
Theorem safe_move_effect (fs fs' : FS) (src dst p : path) :
  safe_move fs src dst = Ok (p, fs') ->
  fs p = false
  /\ fs' p = true
  /\ parent p = parent dst
  /\ (src <> p -> fs' src = false)
  /\ forall q, q <> src -> q <> p -> fs' q = fs q.
Proof.
  intros H. destruct (safe_move_fresh _ _ _ _ _ H) as (F & -> & V).
  split; [exact F|]. split; [apply fs_move_dst|]. split.
  { destruct V as [->|(k & _ & ->)]; [reflexivity | apply numbered_parent]. }
  split.
  - intros N. rewrite fs_move_elsewhere by exact N. now rewrite path_eqb_refl.
  - intros q NS NP. rewrite fs_move_elsewhere by exact NP.
    apply path_eqb_neq in NS. now rewrite NS.
Qed.

Lemma safe_move_effect_witness :
  exists fs', safe_move (fun p => path_eqb p [u "tmp"; u "text.stl"])
                [u "tmp"; u "text.stl"] [u "out"; u "a.stl"]
              = Ok ([u "out"; u "a.stl"], fs')
              /\ fs' [u "tmp"; u "text.stl"] = false
              /\ fs' [u "out"; u "a.stl"] = true.
Proof.
  eexists. split; [reflexivity|].
  destruct (safe_move_effect (fun p => path_eqb p [u "tmp"; u "text.stl"]) _
              [u "tmp"; u "text.stl"] [u "out"; u "a.stl"] [u "out"; u "a.stl"] eq_refl)
    as (_ & T & _ & G & _).
  split; [apply G; discriminate | exact T].
Defined.

(** *** The shape of the numbered names *)

Lemma rfind_dot_none_app (x e : str) :
  rfind_dot e = None -> rfind_dot (x ++ 46 :: e) = Some (List.length x).
Proof.
  intros H. rewrite (rfind_dot_app x (46 :: e) O); [now rewrite Nat.add_0_r|].
  simpl. now rewrite H.
Qed.

Lemma rfind_dot_split (nm : str) (i : nat) :
  rfind_dot nm = Some i ->
  exists x e, nm = x ++ 46 :: e /\ List.length x = i /\ rfind_dot e = None.
Proof.
  revert i. induction nm as [|c t IH]; intros i; simpl; [discriminate|].
  destruct (rfind_dot t) as [j|] eqn:R.
  - intros H. inversion H; subst i. destruct (IH j eq_refl) as (x & e & E & L & N).
    exists (c :: x), e. simpl. rewrite E, L. auto.
  - destruct (c =? 46) eqn:C; [|discriminate].
    intros H. inversion H; subst i. apply N.eqb_eq in C. subst c.
    exists [], t. auto.
Qed.

(** A name with a stem, a dot and an extension that holds no dot. *)
Lemma dotted_name_parts (x e : str) :
  x <> [] -> e <> [] -> rfind_dot e = None ->
  name_stem (x ++ 46 :: e) = x /\ name_suffix (x ++ 46 :: e) = 46 :: e.
Proof.
  intros NX NE R. unfold name_stem, name_suffix, cut_at.
  rewrite (rfind_dot_none_app x e R).
  assert (C : (Nat.ltb 0 (List.length x)
               && Nat.ltb (List.length x) (List.length (x ++ 46 :: e) - 1))%bool = true).
  { apply andb_true_iff. split; apply Nat.ltb_lt.
    - destruct x; [congruence | simpl; lia].
    - rewrite length_app. destruct e; [congruence | simpl; lia]. }
  rewrite C. split.
  - rewrite firstn_app, firstn_all, Nat.sub_diag. simpl. apply app_nil_r.
  - rewrite skipn_app, skipn_all, Nat.sub_diag. reflexivity.
Qed.

(** A name that has a suffix is such a name. *)
Lemma suffix_parts (nm : str) :
  name_suffix nm <> [] ->
  exists x e, nm = x ++ 46 :: e /\ x <> [] /\ e <> [] /\ rfind_dot e = None
              /\ name_stem nm = x /\ name_suffix nm = 46 :: e.
Proof.
  intros S.
  assert (CUT : exists i, rfind_dot nm = Some i
                          /\ (0 < i)%nat /\ (i < List.length nm - 1)%nat).
  { unfold name_suffix, cut_at in S.
    destruct (rfind_dot nm) as [i|] eqn:R.
    - destruct (Nat.ltb 0 i && Nat.ltb i (List.length nm - 1))%bool eqn:C.
      + apply andb_true_iff in C as [A B]. apply Nat.ltb_lt in A, B. eauto.
      + rewrite skipn_all in S. congruence.
    - rewrite skipn_all in S. congruence. }
  destruct CUT as (i & R & P & Q).
  destruct (rfind_dot_split nm i R) as (x & e & E & L & N).
  assert (NX : x <> []) by (destruct x; [simpl in L; lia | discriminate]).
  assert (NE : e <> []).
  { intros ->. rewrite E, length_app in Q. simpl in Q. lia. }
  exists x, e. destruct (dotted_name_parts x e NX NE N) as [A B].
  subst nm. auto 10.
Qed.

(** A numbered name is in the directory of the destination and has its
    number, of two digits or more, at the end of the stem; when the
    destination has an extension, the numbered name has the same. *)
Theorem numbered_shape (dst : path) (i : nat) :
  parent (numbered dst i) = parent dst
  /\ name (numbered dst i) = stem dst ++ u "_" ++ fmt_02d i ++ suffix dst
  /\ Forall (fun c => in_range 48 57 c = true) (fmt_02d i)
  /\ (2 <= List.length (fmt_02d i))%nat
  /\ (suffix dst <> [] ->
      suffix (numbered dst i) = suffix dst
      /\ stem (numbered dst i) = stem dst ++ u "_" ++ fmt_02d i)
  /\ (forall j, numbered dst i = numbered dst j -> i = j)
  /\ numbered dst i <> dst.
Proof.
  split; [apply numbered_parent|]. split; [apply numbered_name|].
  destruct (fmt_02d_digits i) as [D L].
  split; [exact D|]. split; [exact L|]. split.
  - intros SF. unfold suffix in SF.
    destruct (suffix_parts (name dst) SF) as (x & e & _ & NX & NE & R & ST & SU).
    assert (NM : name (numbered dst i) = (x ++ u "_" ++ fmt_02d i) ++ 46 :: e).
    { rewrite numbered_name. unfold stem, suffix. rewrite ST, SU.
      now rewrite <- !app_assoc. }
    assert (NX' : x ++ u "_" ++ fmt_02d i <> []) by now destruct x.
    destruct (dotted_name_parts _ e NX' NE R) as [A B].
    unfold suffix, stem. rewrite NM, ST, SU. auto.
  - split; [intros j; apply numbered_inj | apply numbered_not_dst].
Qed.

(** *** One move after the other to the same destination *)

Lemma safe_move_all_numbered (dst : path) (srcs : list path) :
  forall i fs,
    (1 <= i)%nat -> (i + List.length srcs <= 1 + 9999)%nat ->
    fs dst = true ->
    (forall m, (1 <= m < i)%nat -> fs (numbered dst m) = true) ->
    (forall m, (i <= m < i + List.length srcs)%nat -> fs (numbered dst m) = false) ->
    (forall s, In s srcs ->
       s <> dst /\ forall m, (1 <= m <= 9999)%nat -> s <> numbered dst m) ->
    exists fs',
      safe_move_all fs srcs dst = Ok (map (numbered dst) (seq i (List.length srcs)), fs')
      /\ fs' dst = true
      /\ forall m, (1 <= m < i + List.length srcs)%nat -> fs' (numbered dst m) = true.
Proof.
  induction srcs as [|src rest IH]; intros i fs I B D TAKEN FREE SRC.
  - exists fs. simpl. rewrite Nat.add_0_r. auto.
  - destruct (SRC src (or_introl eq_refl)) as [SD SN]. cbn [List.length] in B, FREE.
    assert (M : safe_move fs src dst
                = Ok (numbered dst i, fs_move fs src (numbered dst i))).
    { unfold safe_move. rewrite D. cbn [negb].
      rewrite (first_free_some fs dst 9999 1 i); auto; [lia|].
      apply FREE. lia. }
    destruct (IH (S i) (fs_move fs src (numbered dst i))) as (fs' & E & D' & T').
    + lia.
    + lia.
    + apply fs_move_other; auto.
    + intros m Hm. destruct (Nat.eq_dec m i) as [->|]; [apply fs_move_dst|].
      apply fs_move_other; [apply not_eq_sym, SN; lia | apply TAKEN; lia].
    + intros m Hm. rewrite fs_move_elsewhere.
      * destruct (path_eqb (numbered dst m) src); [reflexivity|].
        apply FREE. lia.
      * intros X. apply numbered_inj in X. lia.
    + intros s Hs. apply SRC. now right.
    + exists fs'. simpl. rewrite M, E. repeat split; auto.
      intros m Hm. apply T'. lia.
Qed.

(** With the destination and its first [n] numbered names free, [n + 1]
    moves to that destination, of sources that are none of those names,
    give the destination and then [_01], [_02] and so on in order, as long
    as [n] is 9999 at most; and all of them exist in the end. *)
Theorem safe_move_all_in_order (fs : FS) (srcs : list path) (dst : path) (n : nat) :
  List.length srcs = S n ->
  (n <= 9999)%nat ->
  (forall p, In p (targets dst n) -> fs p = false) ->
  (forall s, In s srcs -> ~ In s (targets dst 9999)) ->
  exists fs',
    safe_move_all fs srcs dst = Ok (targets dst n, fs')
    /\ forall p, In p (targets dst n) -> fs' p = true.
Proof.
  intros L N FREE SRC. destruct srcs as [|src rest]; [discriminate|].
  simpl in L. inversion L as [L']. clear L.
  assert (OUT : forall s, In s (src :: rest) -> s <> dst /\ forall m, (1 <= m <= 9999)%nat ->
                   s <> numbered dst m).
  { intros s Hs. specialize (SRC s Hs). split.
    - intros ->. apply SRC. now left.
    - intros m Hm ->. apply SRC. right. apply in_map. apply in_seq. lia. }
  assert (D : fs dst = false) by (apply FREE; now left).
  assert (M : safe_move fs src dst = Ok (dst, fs_move fs src dst))
    by (unfold safe_move; now rewrite D).
  assert (FREE' : forall m, (1 <= m < 1 + n)%nat -> fs (numbered dst m) = false).
  { intros m Hm. apply FREE. right. apply in_map. apply in_seq. lia. }
  destruct (safe_move_all_numbered dst rest 1%nat (fs_move fs src dst)) as (fs' & E & D' & T').
  - lia.
  - lia.
  - apply fs_move_dst.
  - intros m Hm. lia.
  - intros m Hm. rewrite fs_move_elsewhere by apply numbered_not_dst.
    destruct (path_eqb (numbered dst m) src); [reflexivity|]. apply FREE'. lia.
  - intros s Hs. apply OUT. now right.
  - exists fs'. simpl. rewrite M, E. unfold targets. rewrite L'. split; [reflexivity|].
    intros p [<-|I]; [exact D'|].
    apply in_map_iff in I as (m & <- & I). apply in_seq in I. apply T'. lia.
Qed.

(** Three downloads moved to [out/a.stl] in an empty output directory. *)
Lemma safe_move_all_in_order_witness :
  exists fs',
    safe_move_all no_files
      [[u "tmp"; u "x.stl"]; [u "tmp"; u "y.stl"]; [u "tmp"; u "z.stl"]]
      [u "out"; u "a.stl"]
    = Ok ([[u "out"; u "a.stl"]; [u "out"; u "a_01.stl"]; [u "out"; u "a_02.stl"]], fs').
Proof.
  destruct (safe_move_all_in_order no_files
              [[u "tmp"; u "x.stl"]; [u "tmp"; u "y.stl"]; [u "tmp"; u "z.stl"]]
              [u "out"; u "a.stl"] 2 eq_refl
              ltac:(apply Nat.leb_le; vm_compute; reflexivity) (fun _ _ => eq_refl))
    as (fs' & E & _).
  - intros s Hs T.
    assert (P : parent s = [u "tmp"])
      by (simpl in Hs; destruct Hs as [<-|[<-|[<-|[]]]]; reflexivity).
    destruct T as [<-|T]; [discriminate|].
    apply in_map_iff in T as (m & <- & _). rewrite numbered_parent in P. discriminate.
  - exists fs'. exact E.
Defined.

(** ** The sanitizer: the slice, the placeholder and the names it keeps *)

Section SanitizerMore.
Context {db : UnicodeDB}.

Lemma no_double_underscore_firstn (n : nat) (s : str) :
  no_double_underscore s = true -> no_double_underscore (firstn n s) = true.
Proof.
  intros H. rewrite <- (firstn_skipn n s) in H.
  now apply no_double_underscore_app_l in H.
Qed.

Lemma Forall_firstn {A : Type} (P : A -> Prop) (n : nat) (l : list A) :
  Forall P l -> Forall P (firstn n l).
Proof.
  intros H. rewrite <- (firstn_skipn n l) in H. now apply Forall_app in H as [H _].
Qed.

Lemma slice_to_prefix (s : str) (n : Z) : exists k, slice_to s n = firstn k s.
Proof. unfold slice_to. destruct (n <? 0)%Z; eauto. Qed.

Lemma all_stripped (f : char -> bool) (s : str) :
  Forall (fun c => f c = true) s -> strip_by f s = [].
Proof.
  intros F. unfold strip_by.
  assert (E : lstrip_by f s = []).
  { induction F as [|c t C F IH]; simpl; [reflexivity | now rewrite C]. }
  now rewrite E.
Qed.

(** A text that is clean already comes out of [clean_stem] as it is. *)
Lemma clean_stem_fixed (s : str) :
  s <> [] ->
  Forall (fun c => unsafe_char c = false) s ->
  no_double_underscore s = true ->
  match s with [] => True | c :: _ => is_underscore c = false end ->
  is_underscore (last s 0) = false ->
  clean_stem s = s.
Proof.
  intros NE A ND HD LA. unfold clean_stem.
  assert (S1 : strip s = s).
  { destruct s as [|c r']; [congruence|].
    apply strip_by_fixed with 0.
    - inversion A; subst. now apply safe_not_space.
    - apply safe_not_space. rewrite Forall_forall in A. apply A.
      apply (@exists_last _ (c :: r')) in NE as (l' & a & E).
      rewrite E, last_last. apply in_or_app. right. now left. }
  rewrite S1. unfold sub_runs.
  rewrite (sub_runs_from_fixed unsafe_char false s A).
  rewrite (collapse_fixed false s ND).
  rewrite (strip_by_fixed is_underscore s 0 HD LA).
  destruct s; [congruence | reflexivity].
Qed.

End SanitizerMore.

(** For any [max_len]: the result is a prefix of the name cleaned, so it
    holds only characters that are kept, no two underscores in a row and
    none in front. With [max_len] of 1 or more it is not empty and at most
    [max_len] long; with [max_len = 0] it is empty; a negative [max_len]
    cuts that many characters off the end instead, which can leave
    nothing. A smaller [max_len] gives a prefix of what a larger gives. *)
Theorem sanitize_stem_max_len {db : UnicodeDB} (s : str) (n : Z) :
  let r := sanitize_stem s n in
  Forall (fun c => unsafe_char c = false) r
  /\ no_double_underscore r = true
  /\ match r with [] => True | c :: _ => is_underscore c = false end
  /\ ((0 <= n)%Z -> List.length r = Nat.min (Z.to_nat n) (List.length (clean_stem s)))
  /\ ((n < 0)%Z -> List.length r = (List.length (clean_stem s) - Z.to_nat (- n))%nat)
  /\ ((1 <= n)%Z -> r <> [])
  /\ (n = 0%Z -> r = [])
  /\ (forall m, (0 <= n <= m)%Z -> r = firstn (Z.to_nat n) (sanitize_stem s m)).
Proof.
  cbv zeta. destruct (clean_stem_shape s) as (NE & A & ND & HD & _ & _).
  unfold sanitize_stem.
  destruct (slice_to_prefix (clean_stem s) n) as [k K].
  split; [rewrite K; now apply Forall_firstn|].
  split; [rewrite K; now apply no_double_underscore_firstn|].
  split.
  { rewrite K. destruct (clean_stem s); [now destruct k|]. now destruct k. }
  unfold slice_to. split; [|split; [|split; [|split]]].
  - intros P. apply Z.ltb_ge in P. rewrite P. apply length_firstn.
  - intros P. apply Z.ltb_lt in P. rewrite P. rewrite length_firstn. lia.
  - intros P. assert (Q : (n <? 0)%Z = false) by (apply Z.ltb_ge; lia). rewrite Q.
    destruct (Z.to_nat n) eqn:E; [lia|].
    destruct (clean_stem s); [congruence | discriminate].
  - intros ->. reflexivity.
  - intros m [P Q].
    assert (Pn : (n <? 0)%Z = false) by (apply Z.ltb_ge; lia).
    assert (Pm : (m <? 0)%Z = false) by (apply Z.ltb_ge; lia).
    rewrite Pn, Pm, firstn_firstn. f_equal. lia.
Qed.

(** A name in which every character is one that is replaced, or an
    underscore, becomes the placeholder; so does the empty name. *)
Theorem sanitize_stem_placeholder {db : UnicodeDB} (s : str) :
  Forall (fun c => unsafe_char c = true \/ c = 95) s ->
  sanitize_stem s 80 = u "item".
Proof.
  intros F. unfold sanitize_stem, clean_stem.
  assert (F1 : Forall (fun c => unsafe_char c = true \/ c = 95) (strip s))
    by now apply strip_by_Forall.
  assert (F2 : Forall (fun c => c = 95) (sub_runs unsafe_char (strip s))).
  { pose proof (sub_runs_from_chars unsafe_char false (strip s)) as C.
    rewrite Forall_forall in *. intros c Hc.
    destruct (C c Hc) as [-> | [U I0]]; [reflexivity|].
    destruct (F1 c I0) as [U' | ->]; [congruence | reflexivity]. }
  assert (F3 : Forall (fun c => is_underscore c = true)
                 (sub_runs is_underscore (sub_runs unsafe_char (strip s)))).
  { pose proof (sub_runs_from_chars is_underscore false
                  (sub_runs unsafe_char (strip s))) as C.
    rewrite Forall_forall in *. intros c Hc.
    destruct (C c Hc) as [-> | [U I0]]; [reflexivity|].
    rewrite (F2 c I0) in U. discriminate. }
  rewrite (all_stripped is_underscore _ F3). reflexivity.
Qed.

Lemma sanitize_stem_placeholder_witness :
  sanitize_stem (db := latin1_db) (u "  ?! _ / ") 80 = u "item".
Proof.
  apply (@sanitize_stem_placeholder latin1_db).
  repeat (apply Forall_cons; [first [left; reflexivity | right; reflexivity]|]).
  apply Forall_nil.
Defined.

(** The names that [sanitize_stem] returns as they are: those that are
    not empty, at most 80 characters long, made of characters that are
    kept, without two underscores in a row and without an underscore in
    front or at the end. *)
Theorem sanitize_stem_fixed_points {db : UnicodeDB} (s : str) :
  sanitize_stem s 80 = s
  <-> s <> []
      /\ (List.length s <= 80)%nat
      /\ Forall (fun c => unsafe_char c = false) s
      /\ no_double_underscore s = true
      /\ match s with [] => True | c :: _ => c <> 95 end
      /\ last s 0 <> 95.
Proof.
  split.
  - intros E. destruct (sanitize_stem_shape s) as (NE & LE & A & ND & HD & _).
    pose proof (sanitize_stem_twice s) as T.
    rewrite E in *. repeat split; auto.
    + destruct s; [exact I|]. unfold is_underscore in HD. now apply N.eqb_neq in HD.
    + rewrite E in T. pose proof (rstrip_by_last is_underscore s 0) as L.
      rewrite <- T in L. specialize (L NE). unfold is_underscore in L.
      now apply N.eqb_neq in L.
  - intros (NE & LE & A & ND & HD & LA).
    unfold sanitize_stem. rewrite clean_stem_fixed; auto.
    + rewrite slice_to_80_split. now apply firstn_all2.
    + destruct s; [exact I|]. unfold is_underscore. now apply N.eqb_neq.
    + unfold is_underscore. now apply N.eqb_neq.
Qed.

(** ** The phrases that are loaded *)

Lemma crlf_step (c : char) (t : str) :
  match c, t with
  | 13, 10 :: t' => splitlines_from [] t'
  | _, _ => splitlines_from [] t
  end
  = if (c =? 13) && match t with d :: _ => d =? 10 | [] => false end
    then splitlines_from [] (tl t) else splitlines_from [] t.
Proof.
  destruct c as [|p]; [reflexivity|].
  do 4 (try (destruct p as [p|p|])); try reflexivity.
  destruct t as [|d t']; [reflexivity|].
  destruct d as [|p]; [reflexivity|].
  do 4 (try (destruct p as [p|p|])); reflexivity.
Qed.

Lemma splitlines_from_clean (n : nat) :
  forall (s cur : str), (List.length s <= n)%nat ->
  Forall (fun c => is_linebreak c = false) cur ->
  Forall (Forall (fun c => is_linebreak c = false)) (splitlines_from cur s).
Proof.
  induction n as [|n IH]; intros s cur L C.
  - destruct s; [|simpl in L; lia]. simpl.
    destruct cur; [constructor|]. constructor; [|constructor].
    now apply Forall_rev.
  - destruct s as [|c t].
    + simpl. destruct cur; [constructor|]. constructor; [|constructor].
      now apply Forall_rev.
    + simpl in L. cbn [splitlines_from]. destruct (is_linebreak c) eqn:B.
      * constructor; [now apply Forall_rev|].
        rewrite crlf_step.
        destruct ((c =? 13) && match t with d :: _ => d =? 10 | [] => false end).
        -- apply IH; [destruct t; simpl in *; lia | constructor].
        -- apply IH; [lia | constructor].
      * apply IH; [lia|]. now constructor.
Qed.

Lemma splitlines_clean (s : str) :
  Forall (Forall (fun c => is_linebreak c = false)) (splitlines s).
Proof. apply (splitlines_from_clean (List.length s)); [lia | constructor]. Qed.

Lemma strip_strip (s : str) : strip (strip s) = strip s.
Proof.
  unfold strip. destruct (strip_by isspace s) as [|c t] eqn:E; [reflexivity|].
  rewrite <- E. apply strip_by_fixed with 0.
  - apply strip_by_head.
  - apply strip_by_last. congruence.
Qed.

Lemma splitlines_from_line (s cur rest : str) :
  Forall (fun c => is_linebreak c = false) s ->
  splitlines_from cur (s ++ 10 :: rest) = rev (rev s ++ cur) :: splitlines_from [] rest.
Proof.
  intros F. revert cur. induction F as [|c t C F IH]; intros cur.
  - reflexivity.
  - cbn [app splitlines_from]. rewrite C, IH. cbn [rev]. now rewrite <- app_assoc.
Qed.

Lemma splitlines_phrase_file (ps : list str) :
  Forall (Forall (fun c => is_linebreak c = false)) ps ->
  splitlines (phrase_file ps) = ps.
Proof.
  unfold splitlines, phrase_file. induction 1 as [|s t S F IH]; [reflexivity|].
  cbn [map List.concat]. rewrite <- app_assoc. cbn [app].
  rewrite splitlines_from_line by exact S. rewrite app_nil_r, rev_involutive.
  now rewrite IH.
Qed.

Lemma is_usable_iff (s : str) :
  is_usable s = true <-> s <> [] /\ startswith (u "#") s = false.
Proof.
  unfold is_usable. rewrite andb_true_iff, !negb_true_iff.
  destruct s as [|c t].
  - split; [intros [H _]; discriminate H | intros [H _]; congruence].
  - change (str_eqb (c :: t) []) with false.
    split; intros [A B]; split; auto. discriminate.
Qed.

Lemma usable_phrases_shape (text : str) (s : str) :
  In s (usable_phrases text) ->
  s <> [] /\ strip s = s /\ startswith (u "#") s = false
  /\ Forall (fun c => is_linebreak c = false) s.
Proof.
  unfold usable_phrases. intros H.
  apply filter_In in H as [H U]. apply is_usable_iff in U as [NE HS].
  apply in_map_iff in H as (line & <- & IL).
  repeat split; auto.
  - apply strip_strip.
  - apply strip_by_Forall. pose proof (splitlines_clean text) as C.
    rewrite Forall_forall in C. now apply C.
Qed.

(** Every phrase that [load_phrases] returns is not empty, has no white
    space at either end, does not start with [#] and holds no character
    at which lines are split; a line is printed exactly when no phrase
    is returned, and never more than one. It raises only what reading
    the file raises. *)
Theorem load_phrases_shape (p : path) (file : FileText) :
  match load_phrases p file with
  | Ok (phrases, lines) =>
      (forall s, In s phrases ->
         s <> [] /\ strip s = s /\ startswith (u "#") s = false
         /\ Forall (fun c => is_linebreak c = false) s)
      /\ (phrases = [] <-> lines <> [])
      /\ (List.length lines <= 1)%nat
  | Raise e => file = Unreadable e
  end.
Proof.
  destruct file as [|e|t].
  - simpl. split; [tauto|]. split; [|lia]. split; congruence.
  - reflexivity.
  - rewrite usable_loaded. split; [apply usable_phrases_shape|].
    destruct (usable_phrases t); simpl; split; try lia; split; congruence.
Qed.

(** Writing phrases one to a line and loading the file gives the phrases
    back, in order and with repetitions, when each of them is one that
    [load_phrases] can return. *)
Theorem load_phrases_round_trip (p : path) (phrases : list str) :
  Forall (fun s => s <> [] /\ strip s = s /\ startswith (u "#") s = false
                   /\ Forall (fun c => is_linebreak c = false) s) phrases ->
  load_phrases p (Text (phrase_file phrases))
  = Ok (phrases, match phrases with [] => [WarnNoUsablePhrases] | _ => [] end).
Proof.
  intros F. rewrite usable_loaded.
  assert (E : usable_phrases (phrase_file phrases) = phrases).
  { unfold usable_phrases. rewrite splitlines_phrase_file.
    - induction F as [|s t (NE & ST & HS & _) F IH]; [reflexivity|].
      cbn [map filter]. rewrite ST.
      assert (U : is_usable s = true) by (apply is_usable_iff; auto).
      rewrite U. now rewrite IH.
    - eapply Forall_impl; [|exact F]. simpl. tauto. }
  now rewrite E.
Qed.

Lemma load_phrases_round_trip_witness :
  load_phrases [u "phrases.txt"]
    (Text (phrase_file [u "Hello World"; u "a#b"; u "Hello World"]))
  = Ok ([u "Hello World"; u "a#b"; u "Hello World"], []).
Proof.
  apply (load_phrases_round_trip [u "phrases.txt"]).
  repeat (apply Forall_cons;
          [split; [discriminate | split; [reflexivity | split; [reflexivity|]]];
           repeat (apply Forall_cons; [reflexivity|]); apply Forall_nil|]).
  apply Forall_nil.
Defined.

(** ** Every regular file of the font tree is handled once *)

Lemma filter_perm {A : Type} (f : A -> bool) (l l' : list A) :
  Permutation l l' -> Permutation (filter f l) (filter f l').
Proof.
  induction 1 as [|x l l' P IH|x y l|l l' l'' P1 IH1 P2 IH2]; simpl; auto.
  - destruct (f x); auto.
  - destruct (f x), (f y); auto. constructor.
  - eapply Permutation_trans; eassumption.
Qed.

Lemma filter_two_ways {A : Type} (f g : A -> bool) (l : list A) :
  Permutation (filter (fun x => f x && g x) l ++ filter (fun x => f x && negb (g x)) l)
              (filter f l).
Proof.
  induction l as [|x t IH]; simpl; [constructor|].
  destruct (f x), (g x); simpl; auto.
  apply Permutation_sym, Permutation_cons_app, Permutation_sym, IH.
Qed.

Lemma events_loop {db : UnicodeDB} (is_file : path -> bool) (l : list path) :
  map event_path (iter_ttf_fonts_loop is_file l) = filter is_file l
  /\ forall e, In e (iter_ttf_fonts_loop is_file l) ->
       e = if is_ttf (event_path e) then Yield (event_path e) else Skip (event_path e).
Proof.
  induction l as [|p t [IH1 IH2]]; simpl; [split; [reflexivity | tauto]|].
  destruct (is_file p); simpl; [|auto].
  destruct (is_ttf p) eqn:T; simpl; rewrite IH1; (split; [reflexivity|]);
    intros e [<-|I]; simpl; try rewrite T; auto.
Qed.

(** The enumerator goes through the regular files of the tree in the
    order of their paths, directories left out, and either yields a file
    or warns about it, by its suffix alone: the warnings come between
    the fonts, where the paths fall; no file is both yielded and warned
    about, and the two groups together are the regular files of the
    tree, each as often as the walk lists it. *)
Theorem iter_ttf_fonts_events {db : UnicodeDB} (tree : list path) (is_file : path -> bool) :
  let evs := iter_ttf_fonts tree is_file in
  map event_path evs = filter is_file (sorted tree)
  /\ StronglySorted path_le (map event_path evs)
  /\ (forall e, In e evs ->
        e = if is_ttf (event_path e) then Yield (event_path e) else Skip (event_path e))
  /\ (forall p, In p (yielded evs) -> In p (skipped evs) -> False)
  /\ Permutation (yielded evs ++ skipped evs) (filter is_file tree).
Proof.
  cbv zeta. unfold iter_ttf_fonts.
  destruct (events_loop is_file (sorted tree)) as [E1 E2].
  split; [exact E1|]. split; [rewrite E1; apply filter_sorted, sorted_sorted|].
  split; [exact E2|]. rewrite yielded_loop, skipped_loop. split.
  - intros p Y K. apply filter_In in Y as [_ Y]. apply filter_In in K as [_ K].
    apply andb_true_iff in Y as [_ Y]. apply andb_true_iff in K as [_ K].
    rewrite Y in K. discriminate.
  - eapply Permutation_trans; [apply filter_two_ways|].
    apply filter_perm, Permutation_sym, sorted_perm.
Qed.

(** ** Which names count as partial downloads *)

Lemma startswith_iff (p s : str) :
  startswith p s = true <-> exists r, s = p ++ r.
Proof.
  revert s. induction p as [|a p IH]; intros s; simpl.
  - split; [intros _; now exists s | reflexivity].
  - destruct s as [|b s]; [split; [discriminate | intros [r E]; discriminate]|].
    rewrite andb_true_iff, N.eqb_eq, IH. split.
    + intros [-> [r ->]]. now exists r.
    + intros [r E]. inversion E; subst. split; [reflexivity | now exists r].
Qed.

Lemma endswith_iff (p s : str) :
  endswith p s = true <-> exists x, s = x ++ p.
Proof.
  unfold endswith. rewrite startswith_iff. split.
  - intros [r E]. exists (rev r).
    rewrite <- (rev_involutive s), E, rev_app_distr. now rewrite rev_involutive.
  - intros [x ->]. exists (rev x). apply rev_app_distr.
Qed.

Lemma str_eqb_eq (a b : str) : str_eqb a b = true <-> a = b.
Proof.
  unfold str_eqb. destruct (list_eq_dec N.eq_dec a b); split; congruence.
Qed.

Lemma stl_not_partial {db : UnicodeDB} (p : path) (x : str) :
  name p = x ++ u ".stl" -> x <> [] -> is_partial p = false.
Proof.
  intros E NE. unfold is_partial. apply orb_false_iff. split.
  - unfold endswith. rewrite E, rev_app_distr. reflexivity.
  - unfold suffix. rewrite E.
    destruct (stl_name_parts x NE) as [_ S]. rewrite S. reflexivity.
Qed.

(** A file counts as partial exactly when its suffix, in lower case, is
    [.part], [.tmp] or [.crdownload], or when its whole name is [.part]:
    the test on the end of the name adds that one name to the test on the
    suffix. A name that ends in [.stl] never counts as partial. *)
Theorem is_partial_iff {db : UnicodeDB} (p : path) :
  (is_partial p = true
   <-> name p = u ".part"
       \/ In (lower (suffix p)) [u ".part"; u ".tmp"; u ".crdownload"])
  /\ (forall x, name p = x ++ u ".stl" -> x <> [] -> is_partial p = false).
Proof.
  split; [|apply stl_not_partial].
  unfold is_partial.
  rewrite orb_true_iff, endswith_iff, existsb_exists. split.
  - intros [[x E]|(s & I & Q)].
    + destruct x as [|c x]; [now left|]. right. left.
      unfold suffix. rewrite E.
      destruct (dotted_name_parts (c :: x) (u "part")) as [_ S];
        [discriminate | discriminate | reflexivity|].
      change (u ".part") with (46 :: u "part"). rewrite S. reflexivity.
    + right. apply str_eqb_eq in Q. now rewrite Q.
  - intros [E|I].
    + left. now exists [].
    + right. exists (lower (suffix p)). split; [exact I | now apply str_eqb_eq].
Qed.

(** ** What the log of a run holds *)

Lemma warned_app (l1 l2 : list LogLine) : warned (l1 ++ l2) = warned l1 ++ warned l2.
Proof. apply flat_map_app. Qed.

Lemma font_errors_app (l1 l2 : list LogLine) :
  font_errors (l1 ++ l2) = font_errors l1 ++ font_errors l2.
Proof. apply flat_map_app. Qed.

Section LogAccounts.
Context {db : UnicodeDB}.
Variable args : Args.
Variable w : World.

Lemma phrase_lines_accounts (font : path) (i j : nat) (phrases : list str)
    (ls : list LogLine) :
  phrase_lines args w font i j phrases ls ->
  warned ls = [] /\ font_errors ls = []
  /\ List.length (pair_lines ls) = List.length ls.
Proof.
  induction 1 as [|j phrase rest l ls L _ (IH1 & IH2 & IH3)]; [auto|].
  change (l :: ls) with ([l] ++ ls).
  rewrite warned_app, font_errors_app, pair_lines_app, !length_app, IH1, IH2, IH3.
  rewrite (line_of_pair_pair _ _ _ _ _ _ _ L).
  destruct l; simpl in L; try contradiction; auto.
Qed.

Lemma font_lines_accounts (phrases : list str) (i : nat) (evs : list FontEvent)
    (ls : list LogLine) :
  font_lines args w phrases i evs ls ->
  warned ls = skipped evs
  /\ font_errors ls = failed_setups w i (yielded evs)
  /\ List.length ls
     = (List.length (warned ls) + List.length (font_errors ls)
        + List.length (pair_lines ls))%nat.
Proof.
  induction 1 as [|i p evs ls _ (IH1 & IH2 & IH3)
                  |i font e evs ls SU _ (IH1 & IH2 & IH3)
                  |i font block evs ls SU PL _ (IH1 & IH2 & IH3)].
  - auto.
  - simpl. rewrite IH1, <- IH2. repeat split; auto.
    rewrite IH3, IH1. lia.
  - simpl. rewrite SU, IH1, <- IH2. repeat split; auto.
    simpl. rewrite IH3, IH1. lia.
  - destruct (phrase_lines_accounts _ _ _ _ _ PL) as (B1 & B2 & B3).
    rewrite warned_app, font_errors_app, pair_lines_app, !length_app, B1, B2, B3.
    simpl. rewrite SU, IH1, <- IH2. repeat split; auto.
    simpl. rewrite IH3, IH1. lia.
Qed.

End LogAccounts.

(** The log of a run that is not aborted holds nothing but the lines of
    the loop: the warnings are those of the files that the enumerator
    skips, in the order of their paths; the lines of failed fonts are
    those of the fonts whose set-up fails, in order, each with what the
    set-up raised; every other line is the line of a pair. *)
Theorem log_accounts {db : UnicodeDB} (args : Args) (w : World) (fs0 : FS) (o : Outcome) :
  main args w fs0 = Ok o ->
  o_driver o = Closed ->
  let evs := iter_ttf_fonts (w_font_tree w) (w_is_file w) in
  let log := st_log (o_state o) in
  warned log = skipped evs
  /\ font_errors log = failed_setups w O (yielded evs)
  /\ List.length log
     = (List.length (skipped evs)
        + List.length (failed_setups w O (yielded evs))
        + List.length (pair_lines log))%nat.
Proof.
  intros M D. cbv zeta.
  destruct (main_returns args w fs0 o M) as [(_ & ND & _)|(_ & _ & _ & _ & FL)].
  - rewrite ND in D. discriminate.
  - destruct (font_lines_accounts _ _ _ _ _ _ FL) as (A1 & A2 & A3).
    rewrite <- A1, <- A2. auto.
Qed.

(** A run over a font, a text file and a font of upper-case suffix: one
    warning, for the text file, and two lines of pairs. *)
Lemma log_accounts_witness :
  let w0 := demo_world [[u "fonts"; u "notes.txt"]; [u "fonts"; u "B.ttf"];
                        [u "fonts"; u "A.TTF"]] (u "one") never in
  let o := outcome_of (main (db := latin1_db) demo_args w0 no_files) in
  warned (st_log (o_state o)) = [[u "fonts"; u "notes.txt"]]
  /\ List.length (st_log (o_state o)) = 3%nat.
Proof.
  cbv zeta.
  pose proof (@log_accounts latin1_db demo_args
                (demo_world [[u "fonts"; u "notes.txt"]; [u "fonts"; u "B.ttf"];
                             [u "fonts"; u "A.TTF"]] (u "one") never) no_files
                (outcome_of (main (db := latin1_db) demo_args
                               (demo_world [[u "fonts"; u "notes.txt"];
                                            [u "fonts"; u "B.ttf"];
                                            [u "fonts"; u "A.TTF"]] (u "one") never)
                               no_files))
                ltac:(vm_compute; reflexivity) ltac:(vm_compute; reflexivity)) as T.
  cbv zeta in T. destruct T as (T1 & _ & T3).
  split.
  - rewrite T1. vm_compute. reflexivity.
  - rewrite T3. vm_compute. reflexivity.
Defined.

(** ** The names of the artifacts are safe as file names *)

Lemma digit_safe {db : UnicodeDB} (c : char) :
  in_range 48 57 c = true -> unsafe_char c = false.
Proof.
  intros H. unfold unsafe_char, is_word, isalnum, ascii_alnum. rewrite H.
  assert (L : (c <? 128) = true).
  { unfold in_range in H. apply andb_true_iff in H as [_ B].
    apply N.leb_le in B. apply N.ltb_lt. lia. }
  now rewrite L.
Qed.

Lemma fmt_02d_short (k : nat) : (k <= 9999)%nat -> (List.length (fmt_02d k) <= 4)%nat.
Proof.
  intros K.
  assert (A : forallb (fun i => Nat.leb (List.length (fmt_02d i)) 4) (seq 0 (S 9999)) = true)
    by (vm_compute; reflexivity).
  rewrite forallb_forall in A. apply Nat.leb_le, A, in_seq. lia.
Qed.

Lemma safe_no_separator {db : UnicodeDB} (s : str) :
  Forall (fun c => unsafe_char c = false) s -> ~ In 47 s /\ ~ In 92 s.
Proof.
  intros F. rewrite Forall_forall in F.
  split; intros I; apply F in I; discriminate I.
Qed.

(** Every artifact that a run reports has a name made of letters, digits,
    underscores, hyphens and dots, so with no separator of directories
    in it; the name has from 8 to 171 characters and ends in [.stl] after
    a part that is not empty, so the watcher of a later run would not
    take it for a partial download. *)
Theorem artifact_names_safe {db : UnicodeDB} (args : Args) (w : World) (fs0 : FS)
    (o : Outcome) :
  main args w fs0 = Ok o ->
  forall i j fn ph final,
    In (OkLine i j fn ph final) (st_log (o_state o)) ->
    Forall (fun c => unsafe_char c = false) final
    /\ ~ In 47 final /\ ~ In 92 final
    /\ (8 <= List.length final <= 171)%nat
    /\ (exists x, x <> [] /\ final = x ++ u ".stl")
    /\ is_partial (child (a_output args) final) = false.
Proof.
  intros M i j fn ph final I.
  destruct (main_returns args w fs0 o M) as [(_ & _ & _ & _ & NO)|(_ & _ & _ & _ & FL)];
    [now apply NO in I|].
  pose proof (font_lines_sound _ _ _ _ _ _ FL _ I) as S. simpl in S.
  destruct S as (_ & font & _ & _ & _ & (_ & _ & _ & _ & _ & _ & V)).
  destruct (out_name_base font ph) as [B NE].
  destruct (sanitize_stem_shape (stem font)) as (N1 & L1 & A1 & _).
  destruct (sanitize_stem_shape ph) as (N2 & L2 & A2 & _).
  cbv zeta in *.
  set (s1 := sanitize_stem (stem font) 80) in *.
  set (s2 := sanitize_stem ph 80) in *.
  assert (AB : Forall (fun c => unsafe_char c = false) (s1 ++ u "__" ++ s2)).
  { apply Forall_app. split; [exact A1|]. apply Forall_app. split; [|exact A2].
    repeat constructor. }
  assert (LB : (4 <= List.length (s1 ++ u "__" ++ s2) <= 162)%nat).
  { rewrite !length_app. change (List.length (u "__")) with 2%nat.
    destruct s1; [congruence|]. destruct s2; [congruence|]. simpl in *. lia. }
  assert (FIN : exists x, x <> [] /\ final = x ++ u ".stl"
                          /\ Forall (fun c => unsafe_char c = false) x
                          /\ (4 <= List.length x <= 167)%nat).
  { destruct V as [->|(k & K & ->)].
    - exists (s1 ++ u "__" ++ s2). repeat split; auto; lia.
    - rewrite B, (numbered_stl_name _ _ k NE).
      exists ((s1 ++ u "__" ++ s2) ++ u "_" ++ fmt_02d k).
      destruct (fmt_02d_digits k) as [DG D2].
      pose proof (fmt_02d_short k (proj2 K)) as D4.
      split; [destruct s1; [congruence | discriminate]|].
      split; [now rewrite <- !app_assoc|].
      split.
      + apply Forall_app. split; [exact AB|]. constructor; [reflexivity|].
        eapply Forall_impl; [|exact DG]. intros c. apply digit_safe.
      + rewrite length_app. change (List.length (u "_" ++ fmt_02d k))
          with (S (List.length (fmt_02d k))). lia. }
  destruct FIN as (x & NX & -> & AX & LX).
  assert (AF : Forall (fun c => unsafe_char c = false) (x ++ u ".stl")).
  { apply Forall_app. split; [exact AX|]. repeat constructor. }
  destruct (safe_no_separator _ AF) as [S1 S2].
  repeat split; auto.
  - rewrite length_app. change (List.length (u ".stl")) with 4%nat. lia.
  - rewrite length_app. change (List.length (u ".stl")) with 4%nat. lia.
  - now exists x.
  - apply (stl_not_partial _ x); [apply name_child | exact NX].
Qed.

(** The artifact of [My Font.ttf] and a phrase with a path in it. *)
Lemma artifact_names_safe_witness :
  let w0 := demo_world [[u "fonts"; u "My Font.ttf"]] (u "../../etc/passwd") never in
  let o := outcome_of (main (db := latin1_db) demo_args w0 no_files) in
  In (OkLine 0 0 (u "My Font.ttf") (u "../../etc/passwd") (u "My_Font__.._.._etc_passwd.stl"))
     (st_log (o_state o))
  /\ ~ In 47 (u "My_Font__.._.._etc_passwd.stl").
Proof.
  cbv zeta.
  assert (I : In (OkLine 0 0 (u "My Font.ttf") (u "../../etc/passwd")
                    (u "My_Font__.._.._etc_passwd.stl"))
                (st_log (o_state (outcome_of
                   (main (db := latin1_db) demo_args
                      (demo_world [[u "fonts"; u "My Font.ttf"]]
                         (u "../../etc/passwd") never)
                      no_files)))))
    by (left; vm_compute; reflexivity).
  split; [exact I|].
  destruct (@artifact_names_safe latin1_db demo_args
              (demo_world [[u "fonts"; u "My Font.ttf"]] (u "../../etc/passwd") never)
              no_files _ ltac:(vm_compute; reflexivity) _ _ _ _ _ I)
    as (_ & T & _).
  exact T.
Defined.

(** ** What can fail for a pair *)


